(** * ElasticitySystem (libMesh, examples/fem_system/fem_system_ex3)

    A shallow embedding of [elasticity_system.C]: the elasticity tensor, the
    variable and constraint set-up of [init_data], and the three assembly
    kernels [element_time_derivative], [side_time_derivative] and
    [mass_residual], followed by the properties proved about them.

    Numbers.  libMesh's [Real] and [Number] are modelled by the exact
    rationals [Qc]; every literal of the source (0.3, 1.0e2, 100, -1) is a
    rational, and the statements below are statements of exact arithmetic:
    rounding of the machine type is not modelled.

    Containers.  A [std::vector] or a dense block that the kernels index is a
    total function of the index; the loops of the source only use indices
    below the sizes the framework gives them.  A [std::set] of boundary ids is
    a [gset Z]. *)

From Stdlib Require Import QArith Qcanon ZArith List Lia Bool.
From stdpp Require Import gmap strings list.

Local Open Scope Qc_scope.

Abbreviation Real := Qc.

(** ** Small vectors and tensors (LIBMESH_DIM = 3) *)

(** [VectorValue<Real>] ([Gradient], [Point]): three components, zero when
    default-constructed. *)
Record Gradient : Type := mkGradient { gx : Real; gy : Real; gz : Real }.

Definition Gradient_zero : Gradient := mkGradient 0 0 0.

(** [g(i)].  The source requires [i < 3]; the model reads 0 elsewhere. *)
Definition vget (g : Gradient) (i : nat) : Real :=
  match i with
  | O => gx g
  | S O => gy g
  | S (S O) => gz g
  | _ => 0
  end.

(** [g(i) = x].  Nothing is stored when [i] is out of range. *)
Definition vset (g : Gradient) (i : nat) (x : Real) : Gradient :=
  match i with
  | O => mkGradient x (gy g) (gz g)
  | S O => mkGradient (gx g) x (gz g)
  | S (S O) => mkGradient (gx g) (gy g) x
  | _ => g
  end.

(** [a * g], a scalar times a vector. *)
Definition vscale (a : Real) (g : Gradient) : Gradient :=
  mkGradient (a * gx g) (a * gy g) (a * gz g).

(** [TensorValue<Real>]: three rows; [Tensor t (r0, r1, r2)] builds it from
    its rows and the default constructor zeroes it. *)
Record Tensor : Type := mkTensor { row0 : Gradient; row1 : Gradient; row2 : Gradient }.

Definition Tensor_zero : Tensor := mkTensor Gradient_zero Gradient_zero Gradient_zero.

Definition trow (t : Tensor) (i : nat) : Gradient :=
  match i with
  | O => row0 t
  | S O => row1 t
  | S (S O) => row2 t
  | _ => Gradient_zero
  end.

(** [t(i,j)]. *)
Definition tget (t : Tensor) (i j : nat) : Real := vget (trow t i) j.

(** [t(i,j) += x]. *)
Definition tadd (t : Tensor) (i j : nat) (x : Real) : Tensor :=
  match i with
  | O => mkTensor (vset (row0 t) j (vget (row0 t) j + x)) (row1 t) (row2 t)
  | S O => mkTensor (row0 t) (vset (row1 t) j (vget (row1 t) j + x)) (row2 t)
  | S (S O) => mkTensor (row0 t) (row1 t) (vset (row2 t) j (vget (row2 t) j + x))
  | _ => t
  end.

(** ** Loops and finite sums *)

(** [for (unsigned k = 0; k != n; k++) body], threading the state [s]. *)
Definition for_loop {S : Type} (n : nat) (body : nat -> S -> S) (s : S) : S :=
  fold_left (fun s k => body k s) (seq 0 n) s.

(** The sum of [f 0 .. f (n-1)], used to state what a loop accumulates. *)
Fixpoint sum_n (n : nat) (f : nat -> Real) : Real :=
  match n with
  | O => 0
  | S m => sum_n m f + f m
  end.

(** [ind b x] is [x] when [b] holds and [0] otherwise. *)
Definition ind (b : bool) (x : Real) : Real := if b then x else 0.

(** ** The elasticity tensor *)

(** Modelled from the spec: [kronecker_delta] is declared in
    [elasticity_system.h], which is not part of the sources; the spec calls it
    the Kronecker delta. *)
Definition kronecker_delta (i j : nat) : Real := if Nat.eqb i j then 1 else 0.

(** [ElasticitySystem::elasticity_tensor]. *)
Definition elasticity_tensor (i j k l : nat) : Real :=
  let poisson_ratio : Real := Q2Qc 0.3 in
  let young_modulus : Real := Q2Qc 1.0e2 in
  let lambda_1 :=
    (young_modulus * poisson_ratio) / ((1 + poisson_ratio) * (1 - 2 * poisson_ratio)) in
  let lambda_2 := young_modulus / (2 * (1 + poisson_ratio)) in
  lambda_1 * kronecker_delta i j * kronecker_delta k l +
  lambda_2 * (kronecker_delta i k * kronecker_delta j l +
              kronecker_delta i l * kronecker_delta j k).

(** The Lame parameters as the specification writes them, for a Poisson
    ratio [nu] and a Young modulus [E]. *)
Definition lame_lambda_1 (nu E : Real) : Real := E * nu / ((1 + nu) * (1 - 2 * nu)).
Definition lame_lambda_2 (nu E : Real) : Real := E / (2 * (1 + nu)).

(** The isotropic formula of the specification. *)
Definition isotropic_formula (l1 l2 : Real) (i j k l : nat) : Real :=
  l1 * kronecker_delta i j * kronecker_delta k l +
  l2 * (kronecker_delta i k * kronecker_delta j l +
        kronecker_delta i l * kronecker_delta j k).

(** ** The assembly context *)

(** The element residual and Jacobian blocks of a [FEMContext]:
    [elem_residual v i] is entry [i] of [get_elem_residual(v)] and
    [elem_jacobian r c i j] is entry [(i,j)] of [get_elem_jacobian(r, c)].
    [jacobian_writes] is a ghost trace: every [K(i,j) += x] of a kernel
    records the block and the entry it wrote. *)
Record ElemBlocks : Type := mkElemBlocks {
  elem_residual : nat -> nat -> Real;
  elem_jacobian : nat -> nat -> nat -> nat -> Real;
  jacobian_writes : list (nat * nat * nat * nat)
}.

(** [F(i) += x] with [F = get_elem_residual(v)]. *)
Definition add_residual (v i : nat) (x : Real) (b : ElemBlocks) : ElemBlocks :=
  mkElemBlocks
    (fun v' i' =>
       if Nat.eqb v' v && Nat.eqb i' i then elem_residual b v' i' + x
       else elem_residual b v' i')
    (elem_jacobian b)
    (jacobian_writes b).

(** [F(i) -= x]. *)
Definition sub_residual (v i : nat) (x : Real) (b : ElemBlocks) : ElemBlocks :=
  mkElemBlocks
    (fun v' i' =>
       if Nat.eqb v' v && Nat.eqb i' i then elem_residual b v' i' - x
       else elem_residual b v' i')
    (elem_jacobian b)
    (jacobian_writes b).

(** [K(i,j) += x] with [K = get_elem_jacobian(r, c)]. *)
Definition add_jacobian (r c i j : nat) (x : Real) (b : ElemBlocks) : ElemBlocks :=
  mkElemBlocks
    (elem_residual b)
    (fun r' c' i' j' =>
       if Nat.eqb r' r && Nat.eqb c' c && Nat.eqb i' i && Nat.eqb j' j
       then elem_jacobian b r' c' i' j' + x
       else elem_jacobian b r' c' i' j')
    (jacobian_writes b ++ [(r, c, i, j)]).

(** What the kernels read of an [FEBase]: [get_JxW()[qp]], [get_phi()[i][qp]],
    [get_dphi()[i][qp]] and [get_normals()[qp]]. *)
Record FEBase : Type := mkFEBase {
  get_JxW : nat -> Real;
  get_phi : nat -> nat -> Real;
  get_dphi : nat -> nat -> Gradient;
  get_normals : nat -> Gradient
}.

Definition boundary_id_type : Type := Z.

(** What the kernels use of a [FEMContext]. *)
Record FEMContext : Type := mkFEMContext {
  get_element_fe : nat -> FEBase;
  get_side_fe : nat -> FEBase;
  n_dof_indices : nat -> nat;
  element_qrule_n_points : nat;
  side_qrule_n_points : nat;
  interior_gradient : nat -> nat -> Gradient;
  interior_accel : nat -> nat -> Real;
  has_side_boundary_id : boundary_id_type -> bool;
  get_elem_solution_derivative : Real;
  get_elem_solution_accel_derivative : Real;
  elem_blocks : ElemBlocks
}.

(** The context with its residual and Jacobian blocks replaced. *)
Definition with_blocks (c : FEMContext) (b : ElemBlocks) : FEMContext :=
  mkFEMContext (get_element_fe c) (get_side_fe c) (n_dof_indices c)
    (element_qrule_n_points c) (side_qrule_n_points c)
    (interior_gradient c) (interior_accel c) (has_side_boundary_id c)
    (get_elem_solution_derivative c) (get_elem_solution_accel_derivative c) b.

(** ** The system *)

(** The boundary-id constants of [elasticity_system.h] (not part of the
    sources): a table the kernels and [init_data] are parameterised by. *)
Record BoundaryIds : Type := mkBoundaryIds {
  node_boundary_id : boundary_id_type;
  edge_boundary_id : boundary_id_type;
  fixed_u_boundary_id : boundary_id_type;
  fixed_v_boundary_id : boundary_id_type;
  traction_boundary_id : boundary_id_type;
  pressure_boundary_id : boundary_id_type
}.

Definition boundary_id_min_z : boundary_id_type := 0%Z.
Definition boundary_id_min_y : boundary_id_type := 1%Z.
Definition boundary_id_max_x : boundary_id_type := 2%Z.
Definition boundary_id_max_y : boundary_id_type := 3%Z.
Definition boundary_id_min_x : boundary_id_type := 4%Z.
Definition boundary_id_max_z : boundary_id_type := 5%Z.

(** A [DirichletBoundary]: the boundary ids [b], the constrained [variables];
    the function is always [ZeroFunction] and the ordering always
    [LOCAL_VARIABLE_ORDER]. *)
Record DirichletBoundary : Type := mkDirichletBoundary {
  b : gset boundary_id_type;
  variables : list nat
}.

(** The part of the framework's [System] that [init_data] acts on: the
    variable table, the [time_evolving] registrations, the [DofMap]'s list of
    Dirichlet boundaries, the boundary ids of the local mesh partition and
    those the other processors hold, and whether the parent initialisation has
    run. *)
Record System : Type := mkSystem {
  variable_names : list string;
  time_evolving_orders : list (nat * nat);
  dirichlet_boundaries : list DirichletBoundary;
  mesh_boundary_ids : gset boundary_id_type;
  remote_boundary_ids : gset boundary_id_type;
  initialized : bool
}.

(** The index of [name] in a variable table. *)
Fixpoint variable_index (name : string) (l : list string) : option nat :=
  match l with
  | [] => None
  | x :: l' =>
      if String.eqb x name then Some O
      else match variable_index name l' with
           | Some n => Some (S n)
           | None => None
           end
  end.

(** Modelled from the spec: [System::add_variable(name, fe_type) -> var_id]
    is framework code outside the sources; it returns the index of the
    variable, appending it to the table unless the name is already there. *)
Definition add_variable (name : string) (s : System) : nat * System :=
  match variable_index name (variable_names s) with
  | Some n => (n, s)
  | None =>
      (length (variable_names s),
       mkSystem (variable_names s ++ [name]) (time_evolving_orders s)
         (dirichlet_boundaries s) (mesh_boundary_ids s) (remote_boundary_ids s)
         (initialized s))
  end.

(** Modelled from the spec: [time_evolving(var_id, order)] is framework code
    outside the sources; it records the order for the variable. *)
Definition time_evolving (var order : nat) (s : System) : System :=
  mkSystem (variable_names s) (time_evolving_orders s ++ [(var, order)])
    (dirichlet_boundaries s) (mesh_boundary_ids s) (remote_boundary_ids s)
    (initialized s).

(** Modelled from the spec: [DofMap::add_dirichlet_boundary] is framework
    code outside the sources; it appends the boundary object to the system's
    constraint table. *)
Definition add_dirichlet_boundary (d : DirichletBoundary) (s : System) : System :=
  mkSystem (variable_names s) (time_evolving_orders s)
    (dirichlet_boundaries s ++ [d]) (mesh_boundary_ids s) (remote_boundary_ids s)
    (initialized s).

(** Modelled from the spec: [comm().set_union(ids)] is framework code outside
    the sources; it replaces [ids] by its union over all processors. *)
Definition set_union (s : System) (ids : gset boundary_id_type) : gset boundary_id_type :=
  ids ∪ remote_boundary_ids s.

(** Modelled from the spec: [FEMSystem::init_data] is framework code outside
    the sources; it is the post-initialisation step that finalises the
    numbering and leaves the variable and constraint tables as they are. *)
Definition FEMSystem_init_data (s : System) : System :=
  mkSystem (variable_names s) (time_evolving_orders s)
    (dirichlet_boundaries s) (mesh_boundary_ids s) (remote_boundary_ids s) true.

(** The members of [ElasticitySystem] next to its [System] base.
    [get_second_order_dot_var] is resolved by the time solver: the variable
    itself for a second-order solver, its velocity companion for a
    first-order one. *)
Record ElasticitySystem : Type := mkElasticitySystem {
  base : System;
  _dim : nat;
  _rho : Real;
  _u_var : nat;
  _v_var : nat;
  _w_var : nat;
  get_second_order_dot_var : nat -> nat
}.

(** [if (all_boundary_ids.count(id)) ids.insert(id)]. *)
Definition insert_if_present (all : gset boundary_id_type) (id : boundary_id_type)
    (ids : gset boundary_id_type) : gset boundary_id_type :=
  if decide (id ∈ all) then {[ id ]} ∪ ids else ids.

(** [cond ? l.push_back(x) : (void)0]. *)
Definition push_back_if {A : Type} (cond : bool) (x : A) (l : list A) : list A :=
  if cond then l ++ [x] else l.

(** [ElasticitySystem::init_data], with LIBMESH_ENABLE_DIRICHLET. *)
Definition init_data (ids : BoundaryIds) (sys : ElasticitySystem) : ElasticitySystem :=
  let s := base sys in
  let dim := _dim sys in
  let '(u_var, s) := add_variable "Ux" s in
  let '(v_var, s) := if 1 <? dim then add_variable "Uy" s else (u_var, s) in
  let '(w_var, s) := if 2 <? dim then add_variable "Uz" s else (v_var, s) in
  let s := time_evolving u_var 2 s in
  let s := time_evolving v_var 2 s in
  let s := time_evolving w_var 2 s in
  let all_boundary_ids := set_union s (mesh_boundary_ids s) in
  let dirichlet_boundary_ids :=
    insert_if_present all_boundary_ids (edge_boundary_id ids)
      (insert_if_present all_boundary_ids (node_boundary_id ids)
         (insert_if_present all_boundary_ids boundary_id_min_x ∅)) in
  let dirichlet_u_boundary_ids :=
    insert_if_present all_boundary_ids (fixed_u_boundary_id ids) ∅ in
  let dirichlet_v_boundary_ids :=
    insert_if_present all_boundary_ids (fixed_v_boundary_id ids) ∅ in
  let u_variable := [u_var] in
  let v_variable := [v_var] in
  let variables :=
    push_back_if (2 <? dim) w_var (push_back_if (1 <? dim) v_var [u_var]) in
  let s := add_dirichlet_boundary (mkDirichletBoundary dirichlet_boundary_ids variables) s in
  let s :=
    if decide (dirichlet_u_boundary_ids = ∅) then s
    else add_dirichlet_boundary (mkDirichletBoundary dirichlet_u_boundary_ids u_variable) s in
  let s :=
    if decide (dirichlet_v_boundary_ids = ∅) then s
    else add_dirichlet_boundary (mkDirichletBoundary dirichlet_v_boundary_ids v_variable) s in
  let s := FEMSystem_init_data s in
  mkElasticitySystem s dim (_rho sys) u_var v_var w_var (get_second_order_dot_var sys).

(** ** The assembly kernels *)

(** [if (cond) stmt]. *)
Definition when {S : Type} (cond : bool) (stmt : S -> S) (s : S) : S :=
  if cond then stmt s else s.

(** The stress of one quadrature point: [Tensor tau] and the four nested
    loops [tau(i,j) += elasticity_tensor(i,j,k,l)*grad_U(k,l)]. *)
Definition compute_tau (dim : nat) (grad_U : Tensor) : Tensor :=
  for_loop dim (fun i =>
    for_loop dim (fun j =>
      for_loop dim (fun k =>
        for_loop dim (fun l tau =>
          tadd tau i j (elasticity_tensor i j k l * tget grad_U k l)))))
    Tensor_zero.

(** The local [Gradient body_force(0.0, 0.0, -1.0)] of
    [element_time_derivative]. *)
Definition body_force : Gradient := mkGradient 0 0 (- 1).

(** [ElasticitySystem::element_time_derivative]. *)
Definition element_time_derivative (sys : ElasticitySystem) (request_jacobian : bool)
    (c : FEMContext) : bool * FEMContext :=
  let dim := _dim sys in
  let u_var := _u_var sys in
  let v_var := _v_var sys in
  let w_var := _w_var sys in
  let u_dot_var := get_second_order_dot_var sys u_var in
  let v_dot_var := get_second_order_dot_var sys v_var in
  let w_dot_var := get_second_order_dot_var sys w_var in
  let u_elem_fe := get_element_fe c u_var in
  let n_u_dofs := n_dof_indices c u_var in
  let JxW := get_JxW u_elem_fe in
  let phi := get_phi u_elem_fe in
  let grad_phi := get_dphi u_elem_fe in
  let n_qpoints := element_qrule_n_points c in
  let blocks :=
    for_loop n_qpoints (fun qp =>
      let grad_u := interior_gradient c u_var qp in
      let grad_v := if 1 <? dim then interior_gradient c v_var qp else Gradient_zero in
      let grad_w := if 2 <? dim then interior_gradient c w_var qp else Gradient_zero in
      let grad_U := mkTensor grad_u grad_v grad_w in
      let tau := compute_tau dim grad_U in
      for_loop n_u_dofs (fun i =>
        for_loop dim (fun alpha blk =>
          let blk :=
            add_residual u_dot_var i
              ((tget tau 0 alpha * vget (grad_phi i qp) alpha
                - vget body_force 0 * phi i qp) * JxW qp) blk in
          let blk :=
            when (1 <? dim)
              (add_residual v_dot_var i
                 ((tget tau 1 alpha * vget (grad_phi i qp) alpha
                   - vget body_force 1 * phi i qp) * JxW qp)) blk in
          let blk :=
            when (2 <? dim)
              (add_residual w_dot_var i
                 ((tget tau 2 alpha * vget (grad_phi i qp) alpha
                   - vget body_force 2 * phi i qp) * JxW qp)) blk in
          when request_jacobian
            (for_loop n_u_dofs (fun j =>
               for_loop dim (fun beta blk =>
                 let c0 := vget (grad_phi j qp) beta * get_elem_solution_derivative c in
                 let dtau_uu := elasticity_tensor 0 alpha 0 beta * c0 in
                 let blk :=
                   add_jacobian u_dot_var u_var i j
                     (dtau_uu * vget (grad_phi i qp) alpha * JxW qp) blk in
                 let blk :=
                   when (1 <? dim)
                     (fun blk =>
                        let dtau_uv := elasticity_tensor 0 alpha 1 beta * c0 in
                        let dtau_vu := elasticity_tensor 1 alpha 0 beta * c0 in
                        let dtau_vv := elasticity_tensor 1 alpha 1 beta * c0 in
                        let blk := add_jacobian u_dot_var v_var i j
                                     (dtau_uv * vget (grad_phi i qp) alpha * JxW qp) blk in
                        let blk := add_jacobian v_dot_var u_var i j
                                     (dtau_vu * vget (grad_phi i qp) alpha * JxW qp) blk in
                        add_jacobian v_dot_var v_var i j
                          (dtau_vv * vget (grad_phi i qp) alpha * JxW qp) blk) blk in
                 when (2 <? dim)
                   (fun blk =>
                      let dtau_uw := elasticity_tensor 0 alpha 2 beta * c0 in
                      let dtau_vw := elasticity_tensor 1 alpha 2 beta * c0 in
                      let dtau_wu := elasticity_tensor 2 alpha 0 beta * c0 in
                      let dtau_wv := elasticity_tensor 2 alpha 1 beta * c0 in
                      let dtau_ww := elasticity_tensor 2 alpha 2 beta * c0 in
                      let blk := add_jacobian u_dot_var w_var i j
                                   (dtau_uw * vget (grad_phi i qp) alpha * JxW qp) blk in
                      let blk := add_jacobian v_dot_var w_var i j
                                   (dtau_vw * vget (grad_phi i qp) alpha * JxW qp) blk in
                      let blk := add_jacobian w_dot_var u_var i j
                                   (dtau_wu * vget (grad_phi i qp) alpha * JxW qp) blk in
                      let blk := add_jacobian w_dot_var v_var i j
                                   (dtau_wv * vget (grad_phi i qp) alpha * JxW qp) blk in
                      add_jacobian w_dot_var w_var i j
                        (dtau_ww * vget (grad_phi i qp) alpha * JxW qp) blk) blk)))
            blk)))
      (elem_blocks c) in
  (request_jacobian, with_blocks c blocks).

(** The local [Real pressure = 100] of [side_time_derivative]. *)
Definition pressure : Real := Q2Qc 100.

(** [_dim - 1] on [unsigned int]. *)
Definition dim_minus_one (dim : nat) : nat :=
  Z.to_nat ((Z.of_nat dim - 1) mod 2 ^ 32).

(** [ElasticitySystem::side_time_derivative].  The local [traction] is
    carried through the quadrature loop together with the blocks. *)
Definition side_time_derivative (ids : BoundaryIds) (sys : ElasticitySystem)
    (request_jacobian : bool) (c : FEMContext) : bool * FEMContext :=
  let c' :=
    if has_side_boundary_id c (traction_boundary_id ids)
       || has_side_boundary_id c (pressure_boundary_id ids)
    then
      let dim := _dim sys in
      let u_dot_var := get_second_order_dot_var sys (_u_var sys) in
      let v_dot_var := get_second_order_dot_var sys (_v_var sys) in
      let w_dot_var := get_second_order_dot_var sys (_w_var sys) in
      let u_side_fe := get_side_fe c (_u_var sys) in
      let n_u_dofs := n_dof_indices c (_u_var sys) in
      let JxW := get_JxW u_side_fe in
      let phi := get_phi u_side_fe in
      let normals := get_normals u_side_fe in
      let n_qpoints := side_qrule_n_points c in
      let traction := vset Gradient_zero (dim_minus_one dim) (- 1) in
      let pressureforce := has_side_boundary_id c (pressure_boundary_id ids) in
      let '(_, blocks) :=
        for_loop n_qpoints (fun qp '(traction, blk) =>
          let traction := if pressureforce then vscale pressure (normals qp) else traction in
          (traction,
           for_loop n_u_dofs (fun i blk =>
             let blk := sub_residual u_dot_var i (vget traction 0 * phi i qp * JxW qp) blk in
             let blk :=
               when (1 <? dim)
                 (sub_residual v_dot_var i (vget traction 1 * phi i qp * JxW qp)) blk in
             when (2 <? dim)
               (sub_residual w_dot_var i (vget traction 2 * phi i qp * JxW qp)) blk)
             blk))
          (traction, elem_blocks c) in
      with_blocks c blocks
    else c in
  (request_jacobian, c').

(** [ElasticitySystem::mass_residual].  [v_ddot] and [w_ddot] are left
    uninitialised by the source in the dimensions that never read them; the
    model puts 0 there. *)
Definition mass_residual (sys : ElasticitySystem) (request_jacobian : bool)
    (c : FEMContext) : bool * FEMContext :=
  let dim := _dim sys in
  let rho := _rho sys in
  let u_dot_var := get_second_order_dot_var sys (_u_var sys) in
  let v_dot_var := get_second_order_dot_var sys (_v_var sys) in
  let w_dot_var := get_second_order_dot_var sys (_w_var sys) in
  let u_elem_fe := get_element_fe c u_dot_var in
  let n_u_dofs := n_dof_indices c u_dot_var in
  let JxW := get_JxW u_elem_fe in
  let phi := get_phi u_elem_fe in
  let n_qpoints := element_qrule_n_points c in
  let blocks :=
    for_loop n_qpoints (fun qp =>
      let u_ddot := interior_accel c u_dot_var qp in
      let v_ddot := if 1 <? dim then interior_accel c v_dot_var qp else 0 in
      let w_ddot := if 2 <? dim then interior_accel c w_dot_var qp else 0 in
      for_loop n_u_dofs (fun i blk =>
        let blk := add_residual u_dot_var i (rho * u_ddot * phi i qp * JxW qp) blk in
        let blk :=
          when (1 <? dim)
            (add_residual v_dot_var i (rho * v_ddot * phi i qp * JxW qp)) blk in
        let blk :=
          when (2 <? dim)
            (add_residual w_dot_var i (rho * w_ddot * phi i qp * JxW qp)) blk in
        when request_jacobian
          (for_loop n_u_dofs (fun j blk =>
             let jac_term := rho * phi i qp * phi j qp * JxW qp in
             let jac_term := jac_term * get_elem_solution_accel_derivative c in
             let blk := add_jacobian u_dot_var u_dot_var i j jac_term blk in
             let blk := when (1 <? dim) (add_jacobian v_dot_var v_dot_var i j jac_term) blk in
             when (2 <? dim) (add_jacobian w_dot_var w_dot_var i j jac_term) blk))
          blk))
      (elem_blocks c) in
  (request_jacobian, with_blocks c blocks).

(** ** Quantities the properties are stated with *)

(** The displacement variable of component [k] (0: U, 1: V, 2: W) and the
    rate variable the time solver gives for it. *)
Definition disp_var (sys : ElasticitySystem) (k : nat) : nat :=
  match k with
  | O => _u_var sys
  | S O => _v_var sys
  | _ => _w_var sys
  end.

Definition rate_var (sys : ElasticitySystem) (k : nat) : nat :=
  get_second_order_dot_var sys (disp_var sys k).

(** The displacement and rate variables of the active components. *)
Definition active_disp_vars (sys : ElasticitySystem) : list nat :=
  disp_var sys <$> seq 0 (_dim sys).

Definition active_rate_vars (sys : ElasticitySystem) : list nat :=
  rate_var sys <$> seq 0 (_dim sys).

(** The blocks a kernel leaves behind. *)
Definition blocks_after (r : bool * FEMContext) : ElemBlocks := elem_blocks (snd r).

(** [grad_U(k,l)]: component [l] of the interpolated gradient of the
    displacement of component [k] at the quadrature point [qp]. *)
Definition grad_U (sys : ElasticitySystem) (c : FEMContext) (qp k l : nat) : Real :=
  vget (interior_gradient c (disp_var sys k) qp) l.

(** The stress as the specification writes it:
    tau(i,alpha) = sum over active k, l of elasticity(i,alpha,k,l) * grad_U(k,l). *)
Definition stress (sys : ElasticitySystem) (c : FEMContext) (qp i alpha : nat) : Real :=
  sum_n (_dim sys) (fun k => sum_n (_dim sys) (fun l =>
    elasticity_tensor i alpha k l * grad_U sys c qp k l)).

(** The interior residual the specification gives to test function [i] of
    component [comp]: at each quadrature point, the stress term summed over
    alpha, minus the body force once, times [JxW]. *)
Definition spec_interior_residual (sys : ElasticitySystem) (c : FEMContext)
    (comp i : nat) : Real :=
  let fe := get_element_fe c (_u_var sys) in
  sum_n (element_qrule_n_points c) (fun qp =>
    (sum_n (_dim sys) (fun alpha => stress sys c qp comp alpha * vget (get_dphi fe i qp) alpha)
     - vget body_force comp * get_phi fe i qp) * get_JxW fe qp).

(** The interior residual the loops of [element_time_derivative] add up: the
    whole bracket, body force included, once per alpha. *)
Definition code_interior_residual (sys : ElasticitySystem) (c : FEMContext)
    (comp i : nat) : Real :=
  let fe := get_element_fe c (_u_var sys) in
  sum_n (element_qrule_n_points c) (fun qp =>
    sum_n (_dim sys) (fun alpha =>
      (stress sys c qp comp alpha * vget (get_dphi fe i qp) alpha
       - vget body_force comp * get_phi fe i qp) * get_JxW fe qp)).

(** The interior Jacobian of the specification for the block of test
    component [comp] and trial component [trial], entry [(i,j)]. *)
Definition spec_interior_jacobian (sys : ElasticitySystem) (c : FEMContext)
    (comp trial i j : nat) : Real :=
  let fe := get_element_fe c (_u_var sys) in
  sum_n (element_qrule_n_points c) (fun qp =>
    sum_n (_dim sys) (fun alpha =>
      sum_n (_dim sys) (fun beta =>
        elasticity_tensor comp alpha trial beta * vget (get_dphi fe j qp) beta
        * get_elem_solution_derivative c
        * vget (get_dphi fe i qp) alpha * get_JxW fe qp))).

(** The boundary residual of a pressure face for component [comp] and test
    function [i]: the load [pressure * normal] against [phi_i], times [JxW]. *)
Definition spec_pressure_residual (sys : ElasticitySystem) (c : FEMContext)
    (comp i : nat) : Real :=
  let fe := get_side_fe c (_u_var sys) in
  sum_n (side_qrule_n_points c) (fun qp =>
    vget (vscale pressure (get_normals fe qp)) comp * get_phi fe i qp * get_JxW fe qp).

(** The mass residual and the mass Jacobian of the specification. *)
Definition spec_mass_residual (sys : ElasticitySystem) (c : FEMContext)
    (comp i : nat) : Real :=
  let fe := get_element_fe c (rate_var sys 0) in
  sum_n (element_qrule_n_points c) (fun qp =>
    _rho sys * interior_accel c (rate_var sys comp) qp * get_phi fe i qp * get_JxW fe qp).

Definition spec_mass_jacobian (sys : ElasticitySystem) (c : FEMContext)
    (i j : nat) : Real :=
  let fe := get_element_fe c (rate_var sys 0) in
  sum_n (element_qrule_n_points c) (fun qp =>
    _rho sys * get_phi fe i qp * get_phi fe j qp * get_JxW fe qp
    * get_elem_solution_accel_derivative c).

(** ** Pieces of the kernels, named for the proofs *)

(** [grad_U] as [element_time_derivative] gathers it at a quadrature point. *)
Definition gathered_grad_U (sys : ElasticitySystem) (c : FEMContext) (qp : nat) : Tensor :=
  mkTensor (interior_gradient c (_u_var sys) qp)
    (if 1 <? _dim sys then interior_gradient c (_v_var sys) qp else Gradient_zero)
    (if 2 <? _dim sys then interior_gradient c (_w_var sys) qp else Gradient_zero).

(** The bracket the residual lines of the alpha loop add for component [k]. *)
Definition interior_term (sys : ElasticitySystem) (c : FEMContext) (k i qp alpha : nat) : Real :=
  let fe := get_element_fe c (_u_var sys) in
  (tget (compute_tau (_dim sys) (gathered_grad_U sys c qp)) k alpha
   * vget (get_dphi fe i qp) alpha
   - vget body_force k * get_phi fe i qp) * get_JxW fe qp.

(** The product one Jacobian line of the beta loop adds for the block of test
    component [k] and trial component [t]. *)
Definition jacobian_term (sys : ElasticitySystem) (c : FEMContext)
    (k t i j qp alpha beta : nat) : Real :=
  let fe := get_element_fe c (_u_var sys) in
  elasticity_tensor k alpha t beta
  * (vget (get_dphi fe j qp) beta * get_elem_solution_derivative c)
  * vget (get_dphi fe i qp) alpha * get_JxW fe qp.

(** The lines of the beta loop as they select the block [(r, cc)]. *)
Definition jacobian_lines (sys : ElasticitySystem) (c : FEMContext)
    (r cc i j qp alpha beta : nat) : Real :=
  let hit k t := (r =? rate_var sys k) && (cc =? disp_var sys t) in
  let T k t := jacobian_term sys c k t i j qp alpha beta in
  ind (hit 0 0)%nat (T 0 0)%nat
  + ind (1 <? _dim sys)
      (ind (hit 0 1)%nat (T 0 1)%nat + ind (hit 1 0)%nat (T 1 0)%nat
       + ind (hit 1 1)%nat (T 1 1)%nat)
  + ind (2 <? _dim sys)
      (ind (hit 0 2)%nat (T 0 2)%nat + ind (hit 1 2)%nat (T 1 2)%nat
       + ind (hit 2 0)%nat (T 2 0)%nat + ind (hit 2 1)%nat (T 2 1)%nat
       + ind (hit 2 2)%nat (T 2 2)%nat).

(** The value of the local [traction] of [side_time_derivative] when the
    residual lines of the quadrature point [qp] run. *)
Definition side_load (ids : BoundaryIds) (sys : ElasticitySystem) (c : FEMContext)
    (qp : nat) : Gradient :=
  if has_side_boundary_id c (pressure_boundary_id ids)
  then vscale pressure (get_normals (get_side_fe c (_u_var sys)) qp)
  else vset Gradient_zero (dim_minus_one (_dim sys)) (- 1).

(** The residual lines of one quadrature point, for the traction [t]. *)
Definition side_lines (sys : ElasticitySystem) (c : FEMContext) (t : Gradient) (qp : nat)
    (blk : ElemBlocks) : ElemBlocks :=
  let fe := get_side_fe c (_u_var sys) in
  for_loop (n_dof_indices c (_u_var sys)) (fun i blk =>
    let blk :=
      sub_residual (rate_var sys 0) i (vget t 0 * get_phi fe i qp * get_JxW fe qp) blk in
    let blk :=
      when (1 <? _dim sys)
        (sub_residual (rate_var sys 1) i (vget t 1 * get_phi fe i qp * get_JxW fe qp)) blk in
    when (2 <? _dim sys)
      (sub_residual (rate_var sys 2) i (vget t 2 * get_phi fe i qp * get_JxW fe qp)) blk)
    blk.

(** The bracket one residual line of the boundary kernel subtracts. *)
Definition side_term (ids : BoundaryIds) (sys : ElasticitySystem) (c : FEMContext)
    (k i qp : nat) : Real :=
  let fe := get_side_fe c (_u_var sys) in
  vget (side_load ids sys c qp) k * get_phi fe i qp * get_JxW fe qp.

(** The product one residual line of the mass kernel adds for component [k]. *)
Definition mass_term (sys : ElasticitySystem) (c : FEMContext) (k i qp : nat) : Real :=
  let fe := get_element_fe c (rate_var sys 0) in
  _rho sys * interior_accel c (rate_var sys k) qp * get_phi fe i qp * get_JxW fe qp.

(** The [jac_term] of the mass kernel. *)
Definition mass_jac_term (sys : ElasticitySystem) (c : FEMContext) (i j qp : nat) : Real :=
  let fe := get_element_fe c (rate_var sys 0) in
  _rho sys * get_phi fe i qp * get_phi fe j qp * get_JxW fe qp
  * get_elem_solution_accel_derivative c.

(** ** Reasoning about statements

    [Adds get f x]: the statement [f] adds [x] to the cell that [get] reads.
    [Keeps obs f]: [f] leaves the observation [obs] as it is.
    [Preserves P f]: [f] keeps the property [P]. *)
Definition Adds {S : Type} (get : S -> Real) (f : S -> S) (x : Real) : Prop :=
  forall s, get (f s) = get s + x.

Definition Keeps {S A : Type} (obs : S -> A) (f : S -> S) : Prop :=
  forall s, obs (f s) = obs s.

Definition Preserves {S : Type} (P : S -> Prop) (f : S -> S) : Prop :=
  forall s, P s -> P (f s).

(** The dimension is 1, 2 or 3 and the variables of the active components
    are numbered apart, as are their rate variables. *)
Definition well_numbered (sys : ElasticitySystem) : Prop :=
  (1 <= _dim sys <= 3)%nat
  /\ NoDup (active_disp_vars sys)
  /\ NoDup (active_rate_vars sys).

(** A Jacobian write that pairs the rate variable of an active component with
    itself. *)
Definition self_coupling_write (sys : ElasticitySystem) (w : nat * nat * nat * nat) : Prop :=
  let '(r, cc, _, _) := w in
  r = cc /\ exists k, (k < _dim sys)%nat /\ r = rate_var sys k.

(** The system with another density. *)
Definition with_rho (sys : ElasticitySystem) (rho : Real) : ElasticitySystem :=
  mkElasticitySystem (base sys) (_dim sys) rho (_u_var sys) (_v_var sys) (_w_var sys)
    (get_second_order_dot_var sys).

(** The context with every interpolated acceleration multiplied by [a]. *)
Definition scale_accel (a : Real) (c : FEMContext) : FEMContext :=
  mkFEMContext (get_element_fe c) (get_side_fe c) (n_dof_indices c)
    (element_qrule_n_points c) (side_qrule_n_points c)
    (interior_gradient c) (fun v qp => a * interior_accel c v qp) (has_side_boundary_id c)
    (get_elem_solution_derivative c) (get_elem_solution_accel_derivative c) (elem_blocks c).

(** ** Concrete inputs *)

Definition real_of_nat (n : nat) : Real := Q2Qc (inject_Z (Z.of_nat n)).

(** A boundary-id table: the traction on the max-x face, the other ids
    outside the range of the box faces. *)
Definition sample_ids : BoundaryIds :=
  mkBoundaryIds 10%Z 20%Z 30%Z 40%Z boundary_id_max_x 50%Z.

(** A system of dimension [dim] before [init_data], on a mesh whose global
    boundary-id set is [ids], driven by a second-order solver. *)
Definition fresh_system (dim : nat) (ids : gset boundary_id_type) : ElasticitySystem :=
  mkElasticitySystem (mkSystem [] [] [] ids ∅ false) dim 1 0%nat 0%nat 0%nat (fun v => v).

(** The same system after [init_data]. *)
Definition sample_system (dim : nat) : ElasticitySystem :=
  init_data sample_ids (fresh_system dim {[ boundary_id_min_x ]}).

(** A first-order solver pairs variable [v] with the velocity variable
    [v + 3]. *)
Definition first_order (sys : ElasticitySystem) : ElasticitySystem :=
  mkElasticitySystem (base sys) (_dim sys) (_rho sys) (_u_var sys) (_v_var sys) (_w_var sys)
    (fun v => (v + 3)%nat).

Definition zero_blocks : ElemBlocks := mkElemBlocks (fun _ _ => 0) (fun _ _ _ _ => 0) [].

(** One test function with value 1 and zero gradient, one quadrature point
    of weight 1, a face of normal (0,0,1); zero displacement gradient and
    zero acceleration; empty blocks.  The side carries the ids [side_ids]. *)
Definition unit_fe : FEBase :=
  mkFEBase (fun _ => 1) (fun _ _ => 1) (fun _ _ => Gradient_zero) (fun _ => mkGradient 0 0 1).

Definition unit_context (side_ids : list boundary_id_type) : FEMContext :=
  mkFEMContext (fun _ => unit_fe) (fun _ => unit_fe) (fun _ => 1%nat) 1 1
    (fun _ _ => Gradient_zero) (fun _ _ => 0)
    (fun id => bool_decide (id ∈ side_ids)) 1 1 zero_blocks.

(** Two test functions and two quadrature points with data that vary with
    every index, nonzero gradients and accelerations, and blocks that already
    hold values. *)
Definition sample_fe : FEBase :=
  mkFEBase
    (fun qp => real_of_nat (qp + 1))
    (fun i qp => real_of_nat (i + 2 * qp + 1))
    (fun i qp => mkGradient (real_of_nat (i + 1)) (real_of_nat (qp + 2)) (real_of_nat (i + qp)))
    (fun qp => mkGradient (real_of_nat qp) 0 1).

Definition sample_context (side_ids : list boundary_id_type) : FEMContext :=
  mkFEMContext (fun _ => sample_fe) (fun _ => sample_fe) (fun _ => 2%nat) 2 2
    (fun v qp => mkGradient (real_of_nat (v + 1)) (real_of_nat qp) (real_of_nat (v + qp)))
    (fun v qp => real_of_nat (v + qp + 1))
    (fun id => bool_decide (id ∈ side_ids)) (real_of_nat 2) (real_of_nat 3)
    (mkElemBlocks (fun v i => real_of_nat (v + i))
                  (fun r c i j => real_of_nat (r + 2 * c + i + j)) []).

(** ** Further quantities and variations of the inputs *)

(** The trace of a tensor over the active dimensions. *)
Definition trace (dim : nat) (t : Tensor) : Real := sum_n dim (fun k => tget t k k).




(** The Lame parameters of the material constants of [elasticity_tensor]. *)
Definition lambda_1 : Real := lame_lambda_1 (Q2Qc 0.3) (Q2Qc 100).
Definition lambda_2 : Real := lame_lambda_2 (Q2Qc 0.3) (Q2Qc 100).

(** The ids present on some processor, as [init_data] gathers them. *)
Definition all_boundary_ids (s : System) : gset boundary_id_type :=
  mesh_boundary_ids s ∪ remote_boundary_ids s.







(** The strain-energy density of a displacement gradient: the computed
    stress contracted with the gradient over the active dimensions. *)
Definition strain_energy (dim : nat) (G : Tensor) : Real :=
  sum_n dim (fun a => sum_n dim (fun b => tget (compute_tau dim G) a b * tget G a b)).

(** * Properties of the embedding *)

(** ** Sums *)

Lemma sum_n_ext (n : nat) (f g : nat -> Real) :
  (forall k, (k < n)%nat -> f k = g k) -> sum_n n f = sum_n n g.
Proof.
  induction n as [|n IH]; intros H; cbn [sum_n]; [reflexivity|].
  rewrite IH by (intros k Hk; apply H; lia).
  rewrite (H n) by lia. reflexivity.
Qed.

Lemma sum_n_zero (n : nat) : sum_n n (fun _ => 0) = 0.
Proof. induction n as [|n IH]; cbn [sum_n]; [reflexivity|]. rewrite IH. ring. Qed.

Lemma sum_n_plus (n : nat) (f g : nat -> Real) :
  sum_n n (fun k => f k + g k) = sum_n n f + sum_n n g.
Proof. induction n as [|n IH]; cbn [sum_n]; [ring|]. rewrite IH. ring. Qed.

Lemma sum_n_scale (n : nat) (a : Real) (f : nat -> Real) :
  sum_n n (fun k => a * f k) = a * sum_n n f.
Proof. induction n as [|n IH]; cbn [sum_n]; [ring|]. rewrite IH. ring. Qed.

Lemma sum_n_opp (n : nat) (f : nat -> Real) :
  sum_n n (fun k => - f k) = - sum_n n f.
Proof. induction n as [|n IH]; cbn [sum_n]; [ring|]. rewrite IH. ring. Qed.

Lemma sum_n_ind (n : nat) (c : bool) (f : nat -> Real) :
  sum_n n (fun k => ind c (f k)) = ind c (sum_n n f).
Proof. destruct c; cbn [ind]; [reflexivity | apply sum_n_zero]. Qed.

(** A sum over [k] of terms selected by [k = a] keeps the term of [a]. *)
Lemma sum_n_pick (n a : nat) (f : nat -> Real) :
  sum_n n (fun k => ind (k =? a) (f k)) = ind (a <? n) (f a).
Proof.
  induction n as [|n IH]; cbn [sum_n]; [reflexivity|].
  rewrite IH. unfold ind.
  destruct (Nat.eqb_spec n a) as [->|Hne].
  - rewrite Nat.ltb_irrefl. replace (a <? S a) with true by (symmetry; apply Nat.ltb_lt; lia). ring.
  - destruct (Nat.ltb_spec a n), (Nat.ltb_spec a (S n)); try lia; ring.
Qed.

Lemma ind_true (x : Real) : ind true x = x.
Proof. reflexivity. Qed.

Lemma ind_zero (c : bool) : ind c 0 = 0.
Proof. destruct c; reflexivity. Qed.

(** ** Loops *)

Lemma for_loop_0 {S : Type} (body : nat -> S -> S) (s : S) : for_loop 0 body s = s.
Proof. reflexivity. Qed.

Lemma for_loop_S {S : Type} (n : nat) (body : nat -> S -> S) (s : S) :
  for_loop (Datatypes.S n) body s = body n (for_loop n body s).
Proof. unfold for_loop. rewrite seq_S, fold_left_app. reflexivity. Qed.

(** A property that every iteration keeps holds after the loop. *)
Lemma for_loop_invariant {S : Type} (P : S -> Prop) (n : nat) (body : nat -> S -> S) (s : S) :
  P s -> (forall k s', (k < n)%nat -> P s' -> P (body k s')) -> P (for_loop n body s).
Proof.
  intros H0 Hstep. induction n as [|n IH]; [exact H0|].
  rewrite for_loop_S. apply Hstep; [lia|]. apply IH. intros k s' Hk. apply Hstep. lia.
Qed.

Section Accumulation.
Context {S : Type} (get : S -> Real).

Lemma Adds_eq (f : S -> S) (x y : Real) : Adds get f x -> x = y -> Adds get f y.
Proof. intros H <-. exact H. Qed.

Lemma Adds_seq (f g : S -> S) (x y : Real) :
  Adds get f x -> Adds get g y -> Adds get (fun s => g (f s)) (x + y).
Proof. intros Hf Hg s. rewrite Hg, Hf. ring. Qed.

Lemma Adds_when (c : bool) (f : S -> S) (x : Real) :
  Adds get f x -> Adds get (when c f) (ind c x).
Proof. intros Hf s. destruct c; cbn [when ind]; [apply Hf | ring]. Qed.

Lemma Adds_for_loop (n : nat) (body : nat -> S -> S) (d : nat -> Real) :
  (forall k, (k < n)%nat -> Adds get (body k) (d k)) -> Adds get (for_loop n body) (sum_n n d).
Proof.
  intros H. induction n as [|n IH]; intros s.
  - rewrite for_loop_0. cbn [sum_n]. ring.
  - rewrite for_loop_S, (H n) by lia. rewrite IH by (intros k Hk; apply H; lia).
    cbn [sum_n]. ring.
Qed.

Lemma Adds_0_seq (f g : S -> S) :
  Adds get f 0 -> Adds get g 0 -> Adds get (fun s => g (f s)) 0.
Proof. intros Hf Hg. eapply Adds_eq; [apply Adds_seq; eassumption | ring]. Qed.

Lemma Adds_0_then (f g : S -> S) (y : Real) :
  Adds get f 0 -> Adds get g y -> Adds get (fun s => g (f s)) y.
Proof. intros Hf Hg. eapply Adds_eq; [apply Adds_seq; eassumption | ring]. Qed.

Lemma Adds_0_when (c : bool) (f : S -> S) :
  Adds get f 0 -> Adds get (when c f) 0.
Proof. intros Hf. eapply Adds_eq; [apply Adds_when; eassumption | apply ind_zero]. Qed.

Lemma Adds_0_for_loop (n : nat) (body : nat -> S -> S) :
  (forall k, (k < n)%nat -> Adds get (body k) 0) -> Adds get (for_loop n body) 0.
Proof.
  intros H. eapply Adds_eq; [apply Adds_for_loop; exact H | apply sum_n_zero].
Qed.

End Accumulation.

Section Keeping.
Context {S A : Type} (obs : S -> A).

Lemma Keeps_seq (f g : S -> S) : Keeps obs f -> Keeps obs g -> Keeps obs (fun s => g (f s)).
Proof. intros Hf Hg s. rewrite Hg. apply Hf. Qed.

Lemma Keeps_when (c : bool) (f : S -> S) : Keeps obs f -> Keeps obs (when c f).
Proof. intros Hf s. destruct c; [apply Hf | reflexivity]. Qed.

Lemma Keeps_when_false (f : S -> S) : Keeps obs (when false f).
Proof. intros s. reflexivity. Qed.

Lemma Keeps_for_loop (n : nat) (body : nat -> S -> S) :
  (forall k, (k < n)%nat -> Keeps obs (body k)) -> Keeps obs (for_loop n body).
Proof.
  intros H s. apply (for_loop_invariant (fun s' => obs s' = obs s)); [reflexivity|].
  intros k s' Hk Hs'. rewrite (H k Hk). exact Hs'.
Qed.

End Keeping.

Section Preserving.
Context {S : Type} (P : S -> Prop).

Lemma Preserves_seq (f g : S -> S) :
  Preserves P f -> Preserves P g -> Preserves P (fun s => g (f s)).
Proof. intros Hf Hg s Hs. apply Hg, Hf, Hs. Qed.

Lemma Preserves_when (c : bool) (f : S -> S) :
  (c = true -> Preserves P f) -> Preserves P (when c f).
Proof. intros Hf s Hs. destruct c; [apply Hf; [reflexivity | exact Hs] | exact Hs]. Qed.

Lemma Preserves_for_loop (n : nat) (body : nat -> S -> S) :
  (forall k, (k < n)%nat -> Preserves P (body k)) -> Preserves P (for_loop n body).
Proof.
  intros H s Hs. apply for_loop_invariant; [exact Hs|].
  intros k s' Hk Hs'. apply (H k Hk), Hs'.
Qed.

End Preserving.

(** ** Vectors and tensors *)

Lemma vget_vset (g : Gradient) (i j : nat) (x : Real) :
  vget (vset g i x) j = if (i =? j) && (j <? 3) then x else vget g j.
Proof.
  destruct i as [|[|[|i]]], j as [|[|[|j]]]; try reflexivity.
  simpl. destruct (i =? j); reflexivity.
Qed.

Lemma tget_tadd (t : Tensor) (i j a b : nat) (x : Real) :
  tget (tadd t i j x) a b =
  tget t a b + ind (i =? a) (ind (j =? b) (ind ((a <? 3) && (b <? 3)) x)).
Proof.
  unfold ind.
  destruct i as [|[|[|i]]], a as [|[|[|a]]]; unfold tget, tadd; simpl trow;
    rewrite ?vget_vset; cbn [Nat.eqb Nat.ltb Nat.leb andb];
    try (destruct (Nat.eqb_spec j b) as [->|Hne]);
    try (destruct (Nat.ltb_spec b 3));
    cbn [andb];
    repeat match goal with
           | |- context [if ?c then _ else _] => destruct c
           end;
    ring.
Qed.

Lemma tget_Tensor_zero (a b : nat) : tget Tensor_zero a b = 0.
Proof. destruct a as [|[|[|a]]], b as [|[|[|b]]]; reflexivity. Qed.

Lemma ltb_true (a n : nat) : (a < n)%nat -> (a <? n) = true.
Proof. apply Nat.ltb_lt. Qed.

(** The stress the four loops compute: the contraction of the elasticity
    tensor with [grad_U] over the active dimensions. *)
Lemma compute_tau_spec (dim : nat) (grad_U : Tensor) (a b : nat) :
  (a < dim)%nat -> (b < dim)%nat -> (dim <= 3)%nat ->
  tget (compute_tau dim grad_U) a b =
  sum_n dim (fun k => sum_n dim (fun l => elasticity_tensor a b k l * tget grad_U k l)).
Proof.
  intros Ha Hb Hd. unfold compute_tau.
  rewrite (Adds_for_loop (fun t => tget t a b) dim _
    (fun i => ind (i =? a)
       (sum_n dim (fun k => sum_n dim (fun l => elasticity_tensor i b k l * tget grad_U k l))))).
  - rewrite sum_n_pick, (ltb_true a dim Ha), tget_Tensor_zero, ind_true. ring.
  - intros i Hi.
    eapply Adds_eq.
    + apply Adds_for_loop with
        (d := fun j => ind (j =? b) (ind (i =? a)
           (sum_n dim (fun k => sum_n dim (fun l => elasticity_tensor i j k l * tget grad_U k l))))).
      intros j Hj. eapply Adds_eq.
      * apply Adds_for_loop with
          (d := fun k => sum_n dim (fun l =>
             ind (i =? a) (ind (j =? b) (elasticity_tensor i j k l * tget grad_U k l)))).
        intros k Hk.
        apply Adds_for_loop. intros l Hl s.
        rewrite tget_tadd, (ltb_true a 3), (ltb_true b 3) by lia.
        reflexivity.
      * destruct (i =? a), (j =? b); cbn [ind]; try reflexivity;
          (rewrite (sum_n_ext _ _ (fun _ => 0)) by (intros; apply sum_n_zero);
           apply sum_n_zero).
    + rewrite sum_n_pick, (ltb_true b dim Hb). reflexivity.
Qed.

(** ** Blocks *)

Lemma Adds_add_residual (v i v' i' : nat) (x : Real) :
  Adds (fun blk => elem_residual blk v i) (add_residual v' i' x)
       (ind ((v =? v') && (i =? i')) x).
Proof. intros blk. cbn. destruct ((v =? v') && (i =? i')); cbn [ind]; ring. Qed.

Lemma Adds_sub_residual (v i v' i' : nat) (x : Real) :
  Adds (fun blk => elem_residual blk v i) (sub_residual v' i' x)
       (ind ((v =? v') && (i =? i')) (- x)).
Proof. intros blk. cbn. destruct ((v =? v') && (i =? i')); cbn [ind]; ring. Qed.

Lemma Adds_add_jacobian_residual (v i r c i' j' : nat) (x : Real) :
  Adds (fun blk => elem_residual blk v i) (add_jacobian r c i' j' x) 0.
Proof. intros blk. cbn. ring. Qed.

Lemma Adds_add_jacobian (r c i j r' c' i' j' : nat) (x : Real) :
  Adds (fun blk => elem_jacobian blk r c i j) (add_jacobian r' c' i' j' x)
       (ind ((r =? r') && (c =? c') && (i =? i') && (j =? j')) x).
Proof.
  intros blk. cbn.
  destruct ((r =? r') && (c =? c') && (i =? i') && (j =? j')); cbn [ind]; ring.
Qed.

Lemma Adds_add_residual_jacobian (r c i j v' i' : nat) (x : Real) :
  Adds (fun blk => elem_jacobian blk r c i j) (add_residual v' i' x) 0.
Proof. intros blk. cbn. ring. Qed.

Ltac adds_zero :=
  repeat first
    [ apply Adds_0_for_loop; intros ? ?
    | apply Adds_0_when
    | apply Adds_add_jacobian_residual
    | apply Adds_add_residual_jacobian
    | apply Adds_0_seq ].

(** ** The interior kernel: residual *)


(** What the kernel adds to entry [i] of the residual block of any variable
    [v], whatever the dimension and the variable numbering. *)
Lemma element_residual_raw (sys : ElasticitySystem) (req : bool) (c : FEMContext) (v i : nat) :
  elem_residual (blocks_after (element_time_derivative sys req c)) v i =
  elem_residual (elem_blocks c) v i +
  sum_n (element_qrule_n_points c) (fun qp =>
    ind (i <? n_dof_indices c (_u_var sys))
      (sum_n (_dim sys) (fun alpha =>
         ind (v =? rate_var sys 0) (interior_term sys c 0 i qp alpha)
         + ind (1 <? _dim sys) (ind (v =? rate_var sys 1) (interior_term sys c 1 i qp alpha))
         + ind (2 <? _dim sys) (ind (v =? rate_var sys 2) (interior_term sys c 2 i qp alpha))))).
Proof.
  unfold blocks_after, element_time_derivative. cbn [snd with_blocks elem_blocks].
  apply (Adds_for_loop (fun blk => elem_residual blk v i)).
  intros qp Hqp. cbv zeta.
  eapply Adds_eq.
  - apply Adds_for_loop with (d := fun i' => ind (i' =? i)
      (sum_n (_dim sys) (fun alpha =>
         ind (v =? rate_var sys 0) (interior_term sys c 0 i qp alpha)
         + ind (1 <? _dim sys) (ind (v =? rate_var sys 1) (interior_term sys c 1 i qp alpha))
         + ind (2 <? _dim sys) (ind (v =? rate_var sys 2) (interior_term sys c 2 i qp alpha))))).
    intros i' Hi'.
    eapply Adds_eq.
    + apply Adds_for_loop. intros alpha Halpha.
      eapply Adds_seq; [eapply Adds_seq; [eapply Adds_seq|]|].
      * apply Adds_add_residual.
      * apply Adds_when, Adds_add_residual.
      * apply Adds_when, Adds_add_residual.
      * apply Adds_0_when. adds_zero.
    + cbv beta. rewrite <- sum_n_ind. apply sum_n_ext. intros alpha Halpha.
      rewrite (Nat.eqb_sym i' i).
      destruct (Nat.eqb_spec i i') as [->|Hne]; rewrite ?andb_true_r, ?andb_false_r;
        cbn [ind]; rewrite ?ind_zero; [|ring].
      unfold interior_term, gathered_grad_U, rate_var, disp_var. ring.
  - apply sum_n_pick.
Qed.

(** ** Active components *)

Lemma fmap_seq_NoDup_inj (f : nat -> nat) (n a b : nat) :
  NoDup (f <$> seq 0 n) -> (a < n)%nat -> (b < n)%nat -> f a = f b -> a = b.
Proof.
  intros Hnd Ha Hb Hab.
  apply (proj1 (NoDup_alt _) Hnd a b (f a)).
  - rewrite list_lookup_fmap, lookup_seq_lt by lia. reflexivity.
  - rewrite list_lookup_fmap, lookup_seq_lt by lia. cbn. congruence.
Qed.

Lemma rate_var_eqb (sys : ElasticitySystem) (a b : nat) :
  NoDup (active_rate_vars sys) -> (a < _dim sys)%nat -> (b < _dim sys)%nat ->
  (rate_var sys a =? rate_var sys b) = (a =? b).
Proof.
  intros Hnd Ha Hb.
  destruct (Nat.eqb_spec a b) as [->|Hne]; [apply Nat.eqb_refl|].
  apply Nat.eqb_neq. intros Heq. apply Hne.
  exact (fmap_seq_NoDup_inj _ _ _ _ Hnd Ha Hb Heq).
Qed.

Lemma disp_var_eqb (sys : ElasticitySystem) (a b : nat) :
  NoDup (active_disp_vars sys) -> (a < _dim sys)%nat -> (b < _dim sys)%nat ->
  (disp_var sys a =? disp_var sys b) = (a =? b).
Proof.
  intros Hnd Ha Hb.
  destruct (Nat.eqb_spec a b) as [->|Hne]; [apply Nat.eqb_refl|].
  apply Nat.eqb_neq. intros Heq. apply Hne.
  exact (fmap_seq_NoDup_inj _ _ _ _ Hnd Ha Hb Heq).
Qed.

Lemma tget_gathered_grad_U (sys : ElasticitySystem) (c : FEMContext) (qp k l : nat) :
  (k < _dim sys)%nat -> (_dim sys <= 3)%nat ->
  tget (gathered_grad_U sys c qp) k l = grad_U sys c qp k l.
Proof.
  intros Hk Hd. unfold gathered_grad_U, grad_U, tget.
  destruct k as [|[|[|k]]]; cbn [trow row0 row1 row2 disp_var]; [reflexivity | | | lia].
  - rewrite (ltb_true 1 (_dim sys)) by lia. reflexivity.
  - rewrite (ltb_true 2 (_dim sys)) by lia. reflexivity.
Qed.

(** The stress the kernel computes is the stress of the specification. *)
Lemma compute_tau_stress (sys : ElasticitySystem) (c : FEMContext) (qp k alpha : nat) :
  (k < _dim sys)%nat -> (alpha < _dim sys)%nat -> (_dim sys <= 3)%nat ->
  tget (compute_tau (_dim sys) (gathered_grad_U sys c qp)) k alpha = stress sys c qp k alpha.
Proof.
  intros Hk Ha Hd. rewrite compute_tau_spec by assumption. unfold stress.
  apply sum_n_ext. intros k' Hk'. apply sum_n_ext. intros l Hl.
  rewrite tget_gathered_grad_U by assumption. reflexivity.
Qed.

(** The residual block of an active component when the active rate variables
    are pairwise distinct. *)
Lemma element_residual_active (sys : ElasticitySystem) (req : bool) (c : FEMContext)
    (comp i : nat) :
  (_dim sys <= 3)%nat -> NoDup (active_rate_vars sys) ->
  (comp < _dim sys)%nat -> (i < n_dof_indices c (_u_var sys))%nat ->
  elem_residual (blocks_after (element_time_derivative sys req c)) (rate_var sys comp) i =
  elem_residual (elem_blocks c) (rate_var sys comp) i + code_interior_residual sys c comp i.
Proof.
  intros Hd Hnd Hc Hi. rewrite element_residual_raw. f_equal.
  unfold code_interior_residual. cbv zeta.
  apply sum_n_ext. intros qp Hqp.
  rewrite (ltb_true _ _ Hi), ind_true.
  apply sum_n_ext. intros alpha Halpha.
  rewrite <- (compute_tau_stress sys c qp comp alpha) by assumption.
  destruct (Nat.ltb_spec 1 (_dim sys)), (Nat.ltb_spec 2 (_dim sys));
    cbn [ind]; rewrite ?rate_var_eqb by (assumption || lia);
    destruct comp as [|[|[|comp]]]; try lia;
    cbn [Nat.eqb ind]; unfold interior_term; ring.
Qed.

(** ** The interior kernel: Jacobian *)




Lemma element_jacobian_raw (sys : ElasticitySystem) (req : bool) (c : FEMContext)
    (r cc i j : nat) :
  elem_jacobian (blocks_after (element_time_derivative sys req c)) r cc i j =
  elem_jacobian (elem_blocks c) r cc i j +
  sum_n (element_qrule_n_points c) (fun qp =>
    ind (i <? n_dof_indices c (_u_var sys))
      (sum_n (_dim sys) (fun alpha =>
         ind req (ind (j <? n_dof_indices c (_u_var sys))
           (sum_n (_dim sys) (fun beta => jacobian_lines sys c r cc i j qp alpha beta)))))).
Proof.
  unfold blocks_after, element_time_derivative. cbn [snd with_blocks elem_blocks].
  apply (Adds_for_loop (fun blk => elem_jacobian blk r cc i j)).
  intros qp Hqp. cbv zeta.
  eapply Adds_eq.
  - apply Adds_for_loop with (d := fun i' => ind (i' =? i)
      (sum_n (_dim sys) (fun alpha =>
         ind req (ind (j <? n_dof_indices c (_u_var sys))
           (sum_n (_dim sys) (fun beta => jacobian_lines sys c r cc i j qp alpha beta)))))).
    intros i' Hi'.
    eapply Adds_eq.
    + apply Adds_for_loop with (d := fun alpha => ind (i' =? i)
         (ind req (ind (j <? n_dof_indices c (_u_var sys))
           (sum_n (_dim sys) (fun beta => jacobian_lines sys c r cc i j qp alpha beta))))).
      intros alpha Halpha.
      eapply Adds_0_then; [adds_zero|].
      eapply Adds_eq.
      * apply Adds_when.
        apply Adds_for_loop with (d := fun j' => ind (j' =? j) (ind (i' =? i)
          (sum_n (_dim sys) (fun beta => jacobian_lines sys c r cc i j qp alpha beta)))).
        intros j' Hj'.
        eapply Adds_eq.
        -- apply Adds_for_loop. intros beta Hbeta.
           eapply Adds_seq; [eapply Adds_seq|].
           ++ apply Adds_add_jacobian.
           ++ apply Adds_when.
              eapply Adds_seq; [eapply Adds_seq|]; apply Adds_add_jacobian.
           ++ apply Adds_when.
              eapply Adds_seq; [eapply Adds_seq; [eapply Adds_seq; [eapply Adds_seq|]|]|];
                apply Adds_add_jacobian.
        -- cbv beta. rewrite <- !sum_n_ind. apply sum_n_ext. intros beta Hbeta.
           rewrite (Nat.eqb_sym i' i), (Nat.eqb_sym j' j).
           destruct (Nat.eqb_spec i i') as [->|Hi], (Nat.eqb_spec j j') as [->|Hj];
             rewrite ?andb_true_r, ?andb_false_r; cbn [ind]; rewrite ?ind_zero;
             try ring.
           unfold jacobian_lines, jacobian_term, rate_var, disp_var. cbv zeta. ring.
      * rewrite sum_n_pick.
        destruct req, (i' =? i), (j <? n_dof_indices c (_u_var sys)); reflexivity.
    + apply sum_n_ind.
  - apply sum_n_pick.
Qed.

Lemma element_jacobian_active (sys : ElasticitySystem) (req : bool) (c : FEMContext)
    (comp trial i j : nat) :
  (_dim sys <= 3)%nat -> NoDup (active_rate_vars sys) -> NoDup (active_disp_vars sys) ->
  (comp < _dim sys)%nat -> (trial < _dim sys)%nat ->
  (i < n_dof_indices c (_u_var sys))%nat -> (j < n_dof_indices c (_u_var sys))%nat ->
  elem_jacobian (blocks_after (element_time_derivative sys req c))
    (rate_var sys comp) (disp_var sys trial) i j =
  elem_jacobian (elem_blocks c) (rate_var sys comp) (disp_var sys trial) i j
  + ind req (spec_interior_jacobian sys c comp trial i j).
Proof.
  intros Hd Hr Hv Hc Ht Hi Hj. rewrite element_jacobian_raw. f_equal.
  unfold spec_interior_jacobian. cbv zeta.
  rewrite <- sum_n_ind. apply sum_n_ext. intros qp Hqp.
  rewrite (ltb_true _ _ Hi), ind_true, <- sum_n_ind.
  apply sum_n_ext. intros alpha Halpha.
  rewrite (ltb_true _ _ Hj), ind_true. f_equal.
  apply sum_n_ext. intros beta Hbeta.
  unfold jacobian_lines. cbv zeta.
  destruct (Nat.ltb_spec 1 (_dim sys)), (Nat.ltb_spec 2 (_dim sys));
    cbn [ind]; rewrite ?rate_var_eqb, ?disp_var_eqb by (assumption || lia);
    destruct comp as [|[|[|comp]]]; try lia;
    destruct trial as [|[|[|trial]]]; try lia;
    cbn [Nat.eqb andb ind]; unfold jacobian_term; ring.
Qed.




Lemma Keeps_writes_add_residual (v i : nat) (x : Real) :
  Keeps jacobian_writes (add_residual v i x).
Proof. intros blk. reflexivity. Qed.

Lemma Keeps_writes_sub_residual (v i : nat) (x : Real) :
  Keeps jacobian_writes (sub_residual v i x).
Proof. intros blk. reflexivity. Qed.

Lemma Keeps_jacobian_add_residual (v i : nat) (x : Real) :
  Keeps elem_jacobian (add_residual v i x).
Proof. intros blk. reflexivity. Qed.

Lemma Keeps_jacobian_sub_residual (v i : nat) (x : Real) :
  Keeps elem_jacobian (sub_residual v i x).
Proof. intros blk. reflexivity. Qed.

Ltac keeps :=
  repeat first
    [ apply Keeps_for_loop; intros ? ?
    | apply Keeps_when_false
    | apply Keeps_when
    | apply Keeps_writes_add_residual
    | apply Keeps_writes_sub_residual
    | apply Keeps_jacobian_add_residual
    | apply Keeps_jacobian_sub_residual
    | apply Keeps_seq ].

(** Without a Jacobian request the interior kernel performs no Jacobian
    write and leaves every Jacobian block as it was. *)
Lemma element_no_request_writes (sys : ElasticitySystem) (c : FEMContext) :
  jacobian_writes (blocks_after (element_time_derivative sys false c)) =
  jacobian_writes (elem_blocks c).
Proof.
  unfold blocks_after, element_time_derivative. cbn [snd with_blocks elem_blocks].
  apply (Keeps_for_loop jacobian_writes). intros qp Hqp. cbv zeta. keeps.
Qed.

Lemma element_no_request_jacobian (sys : ElasticitySystem) (c : FEMContext) :
  elem_jacobian (blocks_after (element_time_derivative sys false c)) =
  elem_jacobian (elem_blocks c).
Proof.
  unfold blocks_after, element_time_derivative. cbn [snd with_blocks elem_blocks].
  apply (Keeps_for_loop elem_jacobian). intros qp Hqp. cbv zeta. keeps.
Qed.

Lemma element_residual_request_independent (sys : ElasticitySystem) (c : FEMContext)
    (v i : nat) :
  elem_residual (blocks_after (element_time_derivative sys false c)) v i =
  elem_residual (blocks_after (element_time_derivative sys true c)) v i.
Proof. rewrite !element_residual_raw. reflexivity. Qed.

(** ** The boundary kernel: residual *)


(** The quadrature loop carries the traction next to the blocks; the blocks
    it leaves are those of a loop that uses [side_load] at every point. *)
Lemma side_loop_blocks (ids : BoundaryIds) (sys : ElasticitySystem) (c : FEMContext)
    (n : nat) (blk0 : ElemBlocks) :
  let pressureforce := has_side_boundary_id c (pressure_boundary_id ids) in
  let t0 := vset Gradient_zero (dim_minus_one (_dim sys)) (- 1) in
  let normals := get_normals (get_side_fe c (_u_var sys)) in
  let body := fun qp '(traction, blk) =>
    let traction := if pressureforce then vscale pressure (normals qp) else traction in
    (traction, side_lines sys c traction qp blk) in
  snd (for_loop n body (t0, blk0)) =
    for_loop n (fun qp => side_lines sys c (side_load ids sys c qp) qp) blk0
  /\ (pressureforce = false -> fst (for_loop n body (t0, blk0)) = t0).
Proof.
  intros pressureforce t0 normals body.
  induction n as [|n [IHs IHf]]; [split; reflexivity|].
  rewrite !for_loop_S.
  destruct (for_loop n body (t0, blk0)) as [t blk] eqn:E. cbn [fst snd] in IHs, IHf.
  unfold body at 1. cbn [fst snd]. subst blk. unfold side_load.
  fold pressureforce. fold normals. fold t0.
  destruct pressureforce eqn:Hp.
  - split; [reflexivity | discriminate].
  - rewrite (IHf eq_refl). split; reflexivity.
Qed.

Lemma side_blocks (ids : BoundaryIds) (sys : ElasticitySystem) (req : bool) (c : FEMContext) :
  blocks_after (side_time_derivative ids sys req c) =
  when (has_side_boundary_id c (traction_boundary_id ids)
        || has_side_boundary_id c (pressure_boundary_id ids))
    (for_loop (side_qrule_n_points c)
       (fun qp => side_lines sys c (side_load ids sys c qp) qp))
    (elem_blocks c).
Proof.
  unfold blocks_after, side_time_derivative, when. cbn [snd].
  destruct (has_side_boundary_id c (traction_boundary_id ids)
            || has_side_boundary_id c (pressure_boundary_id ids)); [|reflexivity].
  cbv zeta.
  match goal with
  | |- elem_blocks (let '(_, blocks) := ?p in with_blocks c blocks) = _ =>
      transitivity (snd p); [destruct p; reflexivity|]
  end.
  exact (proj1 (side_loop_blocks ids sys c (side_qrule_n_points c) (elem_blocks c))).
Qed.


Lemma side_residual_raw (ids : BoundaryIds) (sys : ElasticitySystem) (req : bool)
    (c : FEMContext) (v i : nat) :
  elem_residual (blocks_after (side_time_derivative ids sys req c)) v i =
  elem_residual (elem_blocks c) v i +
  ind (has_side_boundary_id c (traction_boundary_id ids)
       || has_side_boundary_id c (pressure_boundary_id ids))
    (sum_n (side_qrule_n_points c) (fun qp =>
       ind (i <? n_dof_indices c (_u_var sys))
         (ind (v =? rate_var sys 0) (- side_term ids sys c 0 i qp)
          + ind (1 <? _dim sys) (ind (v =? rate_var sys 1) (- side_term ids sys c 1 i qp))
          + ind (2 <? _dim sys) (ind (v =? rate_var sys 2) (- side_term ids sys c 2 i qp))))).
Proof.
  rewrite side_blocks.
  apply (Adds_when (fun blk => elem_residual blk v i)).
  apply Adds_for_loop. intros qp Hqp. unfold side_lines. cbv zeta.
  eapply Adds_eq.
  - apply Adds_for_loop with (d := fun i' => ind (i' =? i)
      (ind (v =? rate_var sys 0) (- side_term ids sys c 0 i qp)
       + ind (1 <? _dim sys) (ind (v =? rate_var sys 1) (- side_term ids sys c 1 i qp))
       + ind (2 <? _dim sys) (ind (v =? rate_var sys 2) (- side_term ids sys c 2 i qp)))).
    intros i' Hi'.
    eapply Adds_eq.
    + eapply Adds_seq; [eapply Adds_seq|].
      * apply Adds_sub_residual.
      * apply Adds_when, Adds_sub_residual.
      * apply Adds_when, Adds_sub_residual.
    + rewrite (Nat.eqb_sym i' i).
      destruct (Nat.eqb_spec i i') as [->|Hne]; rewrite ?andb_true_r, ?andb_false_r;
        cbn [ind]; rewrite ?ind_zero; [|ring].
      reflexivity.
  - apply sum_n_pick.
Qed.

(** The boundary kernel never touches a Jacobian block. *)
Lemma side_keeps_jacobian (ids : BoundaryIds) (sys : ElasticitySystem) (req : bool)
    (c : FEMContext) :
  elem_jacobian (blocks_after (side_time_derivative ids sys req c)) =
  elem_jacobian (elem_blocks c).
Proof. rewrite side_blocks. unfold side_lines. cbv zeta. apply Keeps_when. keeps. Qed.

Lemma side_keeps_writes (ids : BoundaryIds) (sys : ElasticitySystem) (req : bool)
    (c : FEMContext) :
  jacobian_writes (blocks_after (side_time_derivative ids sys req c)) =
  jacobian_writes (elem_blocks c).
Proof. rewrite side_blocks. unfold side_lines. cbv zeta. apply Keeps_when. keeps. Qed.

(** The residual of an active component on a face that carries the pressure
    id, whatever other ids the face carries. *)
Lemma side_residual_pressure (ids : BoundaryIds) (sys : ElasticitySystem) (req : bool)
    (c : FEMContext) (comp i : nat) :
  (_dim sys <= 3)%nat -> NoDup (active_rate_vars sys) ->
  has_side_boundary_id c (pressure_boundary_id ids) = true ->
  (comp < _dim sys)%nat -> (i < n_dof_indices c (_u_var sys))%nat ->
  elem_residual (blocks_after (side_time_derivative ids sys req c)) (rate_var sys comp) i =
  elem_residual (elem_blocks c) (rate_var sys comp) i - spec_pressure_residual sys c comp i.
Proof.
  intros Hd Hnd Hp Hc Hi. rewrite side_residual_raw, Hp, orb_true_r, ind_true.
  unfold Qcminus. f_equal. unfold spec_pressure_residual. cbv zeta.
  rewrite <- sum_n_opp. apply sum_n_ext. intros qp Hqp.
  rewrite (ltb_true _ _ Hi), ind_true. unfold side_term, side_load. rewrite Hp. cbv zeta.
  destruct (Nat.ltb_spec 1 (_dim sys)), (Nat.ltb_spec 2 (_dim sys));
    cbn [ind]; rewrite ?rate_var_eqb by (assumption || lia);
    destruct comp as [|[|[|comp]]]; try lia;
    cbn [Nat.eqb ind]; ring.
Qed.

(** ** The mass kernel: residual and Jacobian *)


Lemma mass_residual_raw (sys : ElasticitySystem) (req : bool) (c : FEMContext) (v i : nat) :
  elem_residual (blocks_after (mass_residual sys req c)) v i =
  elem_residual (elem_blocks c) v i +
  sum_n (element_qrule_n_points c) (fun qp =>
    ind (i <? n_dof_indices c (rate_var sys 0))
      (ind (v =? rate_var sys 0) (mass_term sys c 0 i qp)
       + ind (1 <? _dim sys) (ind (v =? rate_var sys 1) (mass_term sys c 1 i qp))
       + ind (2 <? _dim sys) (ind (v =? rate_var sys 2) (mass_term sys c 2 i qp)))).
Proof.
  unfold blocks_after, mass_residual. cbn [snd with_blocks elem_blocks].
  apply (Adds_for_loop (fun blk => elem_residual blk v i)).
  intros qp Hqp. cbv zeta.
  eapply Adds_eq.
  - apply Adds_for_loop with (d := fun i' => ind (i' =? i)
      (ind (v =? rate_var sys 0) (mass_term sys c 0 i qp)
       + ind (1 <? _dim sys) (ind (v =? rate_var sys 1) (mass_term sys c 1 i qp))
       + ind (2 <? _dim sys) (ind (v =? rate_var sys 2) (mass_term sys c 2 i qp)))).
    intros i' Hi'.
    eapply Adds_eq.
    + eapply Adds_seq; [eapply Adds_seq; [eapply Adds_seq|]|].
      * apply Adds_add_residual.
      * apply Adds_when, Adds_add_residual.
      * apply Adds_when, Adds_add_residual.
      * apply Adds_0_when. adds_zero.
    + rewrite (Nat.eqb_sym i' i).
      destruct (Nat.eqb_spec i i') as [->|Hne]; rewrite ?andb_true_r, ?andb_false_r;
        cbn [ind]; rewrite ?ind_zero; [|ring].
      unfold mass_term, rate_var, disp_var.
      destruct (1 <? _dim sys), (2 <? _dim sys); cbn [ind]; ring.
  - apply sum_n_pick.
Qed.

Lemma mass_jacobian_raw (sys : ElasticitySystem) (req : bool) (c : FEMContext)
    (r cc i j : nat) :
  elem_jacobian (blocks_after (mass_residual sys req c)) r cc i j =
  elem_jacobian (elem_blocks c) r cc i j +
  sum_n (element_qrule_n_points c) (fun qp =>
    ind (i <? n_dof_indices c (rate_var sys 0))
      (ind req (ind (j <? n_dof_indices c (rate_var sys 0))
         (ind ((r =? rate_var sys 0) && (cc =? rate_var sys 0)) (mass_jac_term sys c i j qp)
          + ind (1 <? _dim sys)
              (ind ((r =? rate_var sys 1) && (cc =? rate_var sys 1)) (mass_jac_term sys c i j qp))
          + ind (2 <? _dim sys)
              (ind ((r =? rate_var sys 2) && (cc =? rate_var sys 2)) (mass_jac_term sys c i j qp)))))).
Proof.
  unfold blocks_after, mass_residual. cbn [snd with_blocks elem_blocks].
  apply (Adds_for_loop (fun blk => elem_jacobian blk r cc i j)).
  intros qp Hqp. cbv zeta.
  eapply Adds_eq.
  - apply Adds_for_loop with (d := fun i' => ind (i' =? i)
      (ind req (ind (j <? n_dof_indices c (rate_var sys 0))
         (ind ((r =? rate_var sys 0) && (cc =? rate_var sys 0)) (mass_jac_term sys c i j qp)
          + ind (1 <? _dim sys)
              (ind ((r =? rate_var sys 1) && (cc =? rate_var sys 1)) (mass_jac_term sys c i j qp))
          + ind (2 <? _dim sys)
              (ind ((r =? rate_var sys 2) && (cc =? rate_var sys 2)) (mass_jac_term sys c i j qp)))))).
    intros i' Hi'.
    eapply Adds_0_then; [adds_zero|].
    eapply Adds_eq.
    + apply Adds_when.
      apply Adds_for_loop with (d := fun j' => ind (j' =? j) (ind (i' =? i)
         (ind ((r =? rate_var sys 0) && (cc =? rate_var sys 0)) (mass_jac_term sys c i j qp)
          + ind (1 <? _dim sys)
              (ind ((r =? rate_var sys 1) && (cc =? rate_var sys 1)) (mass_jac_term sys c i j qp))
          + ind (2 <? _dim sys)
              (ind ((r =? rate_var sys 2) && (cc =? rate_var sys 2)) (mass_jac_term sys c i j qp))))).
      intros j' Hj'.
      eapply Adds_eq.
      * eapply Adds_seq; [eapply Adds_seq|].
        -- apply Adds_add_jacobian.
        -- apply Adds_when, Adds_add_jacobian.
        -- apply Adds_when, Adds_add_jacobian.
      * rewrite (Nat.eqb_sym i' i), (Nat.eqb_sym j' j).
        destruct (Nat.eqb_spec i i') as [->|Hi], (Nat.eqb_spec j j') as [->|Hj];
          rewrite ?andb_true_r, ?andb_false_r; cbn [ind]; rewrite ?ind_zero;
          try ring.
        unfold mass_jac_term, rate_var, disp_var. cbv zeta. ring.
    + rewrite sum_n_pick. unfold rate_var, disp_var.
      destruct req, (i' =? i), (j <? _); reflexivity.
  - apply sum_n_pick.
Qed.

Lemma mass_residual_active (sys : ElasticitySystem) (req : bool) (c : FEMContext)
    (comp i : nat) :
  (_dim sys <= 3)%nat -> NoDup (active_rate_vars sys) ->
  (comp < _dim sys)%nat -> (i < n_dof_indices c (rate_var sys 0))%nat ->
  elem_residual (blocks_after (mass_residual sys req c)) (rate_var sys comp) i =
  elem_residual (elem_blocks c) (rate_var sys comp) i + spec_mass_residual sys c comp i.
Proof.
  intros Hd Hnd Hc Hi. rewrite mass_residual_raw. f_equal.
  unfold spec_mass_residual. cbv zeta.
  apply sum_n_ext. intros qp Hqp.
  rewrite (ltb_true _ _ Hi), ind_true.
  destruct (Nat.ltb_spec 1 (_dim sys)), (Nat.ltb_spec 2 (_dim sys));
    cbn [ind]; rewrite ?rate_var_eqb by (assumption || lia);
    destruct comp as [|[|[|comp]]]; try lia;
    cbn [Nat.eqb ind]; unfold mass_term; ring.
Qed.

Lemma mass_jacobian_active (sys : ElasticitySystem) (req : bool) (c : FEMContext)
    (comp i j : nat) :
  (_dim sys <= 3)%nat -> NoDup (active_rate_vars sys) ->
  (comp < _dim sys)%nat ->
  (i < n_dof_indices c (rate_var sys 0))%nat -> (j < n_dof_indices c (rate_var sys 0))%nat ->
  elem_jacobian (blocks_after (mass_residual sys req c)) (rate_var sys comp) (rate_var sys comp) i j =
  elem_jacobian (elem_blocks c) (rate_var sys comp) (rate_var sys comp) i j
  + ind req (spec_mass_jacobian sys c i j).
Proof.
  intros Hd Hnd Hc Hi Hj. rewrite mass_jacobian_raw. f_equal.
  unfold spec_mass_jacobian. cbv zeta.
  rewrite <- sum_n_ind. apply sum_n_ext. intros qp Hqp.
  rewrite (ltb_true _ _ Hi), (ltb_true _ _ Hj), !ind_true. f_equal.
  destruct (Nat.ltb_spec 1 (_dim sys)), (Nat.ltb_spec 2 (_dim sys));
    cbn [ind]; rewrite ?rate_var_eqb by (assumption || lia);
    destruct comp as [|[|[|comp]]]; try lia;
    cbn [Nat.eqb andb ind]; unfold mass_jac_term; ring.
Qed.

(** A block whose row and column variables differ is no target of the mass
    kernel. *)
Lemma mass_jacobian_off_diagonal (sys : ElasticitySystem) (req : bool) (c : FEMContext)
    (r cc i j : nat) :
  r <> cc ->
  elem_jacobian (blocks_after (mass_residual sys req c)) r cc i j =
  elem_jacobian (elem_blocks c) r cc i j.
Proof.
  intros Hne. rewrite mass_jacobian_raw.
  rewrite (sum_n_ext _ _ (fun _ => 0)); [rewrite sum_n_zero; ring|].
  intros qp Hqp.
  assert (Hhit : forall k, (r =? rate_var sys k) && (cc =? rate_var sys k) = false).
  { intros k. destruct (Nat.eqb_spec r (rate_var sys k)), (Nat.eqb_spec cc (rate_var sys k));
      try reflexivity. congruence. }
  rewrite !Hhit.
  destruct (i <? _), req, (j <? _), (1 <? _), (2 <? _); cbn [ind]; ring.
Qed.

(** Every Jacobian write of the mass kernel goes to a block that pairs the
    rate variable of an active component with itself. *)
Lemma mass_writes_self_coupling (sys : ElasticitySystem) (req : bool) (c : FEMContext) :
  (1 <= _dim sys)%nat ->
  exists l,
    jacobian_writes (blocks_after (mass_residual sys req c)) =
      jacobian_writes (elem_blocks c) ++ l
    /\ Forall (self_coupling_write sys) l.
Proof.
  intros Hd.
  unfold blocks_after, mass_residual. cbn [snd with_blocks elem_blocks].
  set (P := fun blk : ElemBlocks => exists l,
    jacobian_writes blk = jacobian_writes (elem_blocks c) ++ l
    /\ Forall (self_coupling_write sys) l).
  assert (Hadd : forall k i j x, (k < _dim sys)%nat ->
            Preserves P (add_jacobian (rate_var sys k) (rate_var sys k) i j x)).
  { intros k i j x Hk blk [l [Hl Hf]]. exists (l ++ [(rate_var sys k, rate_var sys k, i, j)]).
    cbn [add_jacobian jacobian_writes]. rewrite Hl, <- app_assoc. split; [reflexivity|].
    apply Forall_app. split; [exact Hf|]. constructor; [|constructor].
    split; [reflexivity|]. exists k. split; [exact Hk | reflexivity]. }
  assert (Hres : forall v i x, Preserves P (add_residual v i x)).
  { intros v i x blk H. exact H. }
  apply (Preserves_for_loop P).
  2:{ exists []. rewrite app_nil_r. split; [reflexivity | constructor]. }
  intros qp Hqp. cbv zeta.
  apply Preserves_for_loop. intros i Hi.
  apply Preserves_seq; [apply Preserves_seq; [apply Preserves_seq|]|].
  - apply Hres.
  - apply Preserves_when. intros _. apply Hres.
  - apply Preserves_when. intros _. apply Hres.
  - apply Preserves_when. intros _.
    apply Preserves_for_loop. intros j Hj.
    apply Preserves_seq; [apply Preserves_seq|].
    + apply (Hadd 0%nat). lia.
    + apply Preserves_when. intros H1. apply Nat.ltb_lt in H1. apply (Hadd 1%nat). exact H1.
    + apply Preserves_when. intros H2. apply Nat.ltb_lt in H2. apply (Hadd 2%nat). exact H2.
Qed.

(** * The claims

    Each theorem below settles one claim, named at the head of its comment. *)

(** ** Elasticity tensor *)

Lemma young_modulus_literal : Q2Qc 1.0e2 = Q2Qc 100.
Proof. apply Qc_is_canon. reflexivity. Qed.

(** C3.  For all indices, [elasticity_tensor i j k l] is the isotropic
    formula [l1 * d(i,j) * d(k,l) + l2 * (d(i,k) * d(j,l) + d(i,l) * d(j,k))]
    with [l1 = E nu / ((1 + nu) (1 - 2 nu))] and [l2 = E / (2 (1 + nu))] at
    [nu = 0.3] and [E = 100], that is with [l1 = 750/13] and [l2 = 500/13];
    being a function of its four indices only, it has no state to read or
    write. *)
Theorem elasticity_tensor_formula (i j k l : nat) :
  elasticity_tensor i j k l =
    isotropic_formula (lame_lambda_1 (Q2Qc 0.3) (Q2Qc 100))
                      (lame_lambda_2 (Q2Qc 0.3) (Q2Qc 100)) i j k l
  /\ lame_lambda_1 (Q2Qc 0.3) (Q2Qc 100) = Q2Qc (750 # 13)
  /\ lame_lambda_2 (Q2Qc 0.3) (Q2Qc 100) = Q2Qc (500 # 13).
Proof.
  split; [|split].
  - unfold elasticity_tensor, isotropic_formula, lame_lambda_1, lame_lambda_2.
    cbv zeta. rewrite young_modulus_literal. reflexivity.
  - apply Qc_is_canon. vm_compute. reflexivity.
  - apply Qc_is_canon. vm_compute. reflexivity.
Qed.

(** The symmetries of the tensor. *)
Lemma kronecker_delta_sym (i j : nat) : kronecker_delta i j = kronecker_delta j i.
Proof. unfold kronecker_delta. rewrite Nat.eqb_sym. reflexivity. Qed.


(** ** Variable registration and constraints *)

Lemma init_data_vars (ids : BoundaryIds) (sys : ElasticitySystem) :
  _dim (init_data ids sys) = _dim sys
  /\ ((1 <? _dim sys) = false -> _v_var (init_data ids sys) = _u_var (init_data ids sys))
  /\ ((2 <? _dim sys) = false -> _w_var (init_data ids sys) = _v_var (init_data ids sys)).
Proof.
  unfold init_data.
  destruct (add_variable "Ux" (base sys)) as [u s1].
  destruct (1 <? _dim sys) eqn:H1.
  - destruct (add_variable "Uy" s1) as [v s2].
    destruct (2 <? _dim sys) eqn:H2.
    + destruct (add_variable "Uz" s2) as [w s3]. cbn. repeat split; discriminate.
    + cbn. repeat split; discriminate || reflexivity.
  - destruct (2 <? _dim sys) eqn:H2.
    + destruct (add_variable "Uz" s1) as [w s3]. cbn. repeat split; discriminate || reflexivity.
    + cbn. repeat split; reflexivity.
Qed.

(** C5.  After [init_data], in dimension 1 the V variable is the U variable,
    in every dimension below 3 the W variable is the V variable, and so in
    dimension 1 the W variable is the U variable as well. *)
Theorem init_data_aliasing (ids : BoundaryIds) (sys : ElasticitySystem) (d : nat) :
  _dim sys = d ->
  (d = 1%nat -> _v_var (init_data ids sys) = _u_var (init_data ids sys))
  /\ ((d < 3)%nat -> _w_var (init_data ids sys) = _v_var (init_data ids sys))
  /\ (d = 1%nat -> _w_var (init_data ids sys) = _u_var (init_data ids sys)).
Proof.
  intros Hd. destruct (init_data_vars ids sys) as [_ [Hv Hw]]. rewrite Hd in Hv, Hw.
  assert (H1 : d = 1%nat -> (1 <? d) = false) by (intros ->; reflexivity).
  assert (H2 : (d < 3)%nat -> (2 <? d) = false) by (intros H; apply Nat.ltb_ge; lia).
  repeat split.
  - intros E. apply Hv, H1, E.
  - intros L. apply Hw, H2, L.
  - intros E. rewrite Hw by (apply H2; lia). apply Hv, H1, E.
Qed.

Lemma init_data_aliasing_witness :
  _v_var (init_data sample_ids (fresh_system 1 ∅)) = _u_var (init_data sample_ids (fresh_system 1 ∅))
  /\ _w_var (init_data sample_ids (fresh_system 2 {[ 4%Z ]}))
     = _v_var (init_data sample_ids (fresh_system 2 {[ 4%Z ]}))
  /\ _w_var (init_data sample_ids (fresh_system 1 ∅)) = _u_var (init_data sample_ids (fresh_system 1 ∅)).
Proof.
  split; [|split].
  - apply (init_data_aliasing sample_ids (fresh_system 1 ∅) 1 eq_refl). reflexivity.
  - apply (init_data_aliasing sample_ids (fresh_system 2 {[ 4%Z ]}) 2 eq_refl). lia.
  - apply (init_data_aliasing sample_ids (fresh_system 1 ∅) 1 eq_refl). reflexivity.
Defined.

(** In dimensions 2 and 3 a fresh system gets distinct variables. *)
Lemma sample_system_well_numbered :
  well_numbered (sample_system 1) /\ well_numbered (sample_system 2)
  /\ well_numbered (sample_system 3).
Proof.
  unfold well_numbered. repeat split; try (vm_compute; lia);
    apply (bool_decide_unpack _); vm_compute; exact I.
Defined.

Lemma insert_if_present_empty (id : boundary_id_type) (ids : gset boundary_id_type) :
  insert_if_present ∅ id ids = ids.
Proof. unfold insert_if_present. destruct (decide (id ∈ ∅)); [set_solver | reflexivity]. Qed.

Lemma add_variable_constraints (name : string) (s : System) :
  dirichlet_boundaries (snd (add_variable name s)) = dirichlet_boundaries s
  /\ mesh_boundary_ids (snd (add_variable name s)) = mesh_boundary_ids s
  /\ remote_boundary_ids (snd (add_variable name s)) = remote_boundary_ids s.
Proof. unfold add_variable. destruct (variable_index name (variable_names s)); repeat split. Qed.

(** On a mesh without boundary ids [init_data] still registers the general
    Dirichlet boundary, with an empty id set, and none of the two
    single-variable ones. *)
Lemma init_data_without_boundary_ids (ids : BoundaryIds) (sys : ElasticitySystem) :
  mesh_boundary_ids (base sys) = ∅ -> remote_boundary_ids (base sys) = ∅ ->
  exists vars,
    dirichlet_boundaries (base (init_data ids sys)) =
    dirichlet_boundaries (base sys) ++ [mkDirichletBoundary ∅ vars].
Proof.
  intros Hm Hr. unfold init_data.
  pose proof (add_variable_constraints "Ux" (base sys)) as [D1 [M1 R1]].
  destruct (add_variable "Ux" (base sys)) as [u s1]. cbn [snd] in D1, M1, R1.
  assert (exists v s2, (if 1 <? _dim sys then add_variable "Uy" s1 else (u, s1)) = (v, s2)
            /\ dirichlet_boundaries s2 = dirichlet_boundaries s1
            /\ mesh_boundary_ids s2 = mesh_boundary_ids s1
            /\ remote_boundary_ids s2 = remote_boundary_ids s1) as (v & s2 & E2 & D2 & M2 & R2).
  { destruct (1 <? _dim sys).
    - pose proof (add_variable_constraints "Uy" s1) as H.
      destruct (add_variable "Uy" s1) as [v s2]. exists v, s2. split; [reflexivity | exact H].
    - exists u, s1. repeat split. }
  rewrite E2.
  assert (exists w s3, (if 2 <? _dim sys then add_variable "Uz" s2 else (v, s2)) = (w, s3)
            /\ dirichlet_boundaries s3 = dirichlet_boundaries s2
            /\ mesh_boundary_ids s3 = mesh_boundary_ids s2
            /\ remote_boundary_ids s3 = remote_boundary_ids s2) as (w & s3 & E3 & D3 & M3 & R3).
  { destruct (2 <? _dim sys).
    - pose proof (add_variable_constraints "Uz" s2) as H.
      destruct (add_variable "Uz" s2) as [w s3]. exists w, s3. split; [reflexivity | exact H].
    - exists v, s2. repeat split. }
  rewrite E3. cbv zeta.
  unfold set_union. cbn [time_evolving mesh_boundary_ids remote_boundary_ids].
  rewrite M3, M2, M1, Hm, R3, R2, R1, Hr.
  replace (∅ ∪ ∅ : gset boundary_id_type) with (∅ : gset boundary_id_type) by set_solver.
  rewrite !insert_if_present_empty.
  destruct (decide ((∅ : gset boundary_id_type) = ∅)) as [_|Hne]; [|contradiction].
  cbn. rewrite D3, D2, D1. eexists. reflexivity.
Qed.

(** C9.  On a three-dimensional system whose mesh has no boundary id at all
    and whose constraint table is empty, [init_data] leaves one entry in the
    table: the general Dirichlet boundary over the variables 0, 1, 2, with an
    empty set of boundary ids. *)
Theorem init_data_registers_empty_boundary :
  mesh_boundary_ids (base (fresh_system 3 ∅)) ∪ remote_boundary_ids (base (fresh_system 3 ∅)) = ∅
  /\ dirichlet_boundaries (base (fresh_system 3 ∅)) = []
  /\ dirichlet_boundaries (base (init_data sample_ids (fresh_system 3 ∅))) =
     [mkDirichletBoundary ∅ [0; 1; 2]%nat].
Proof.
  split; [|split].
  - cbn. set_solver.
  - reflexivity.
  - vm_compute. reflexivity.
Qed.

(** ** Interior residual *)

Lemma vget_Gradient_zero (l : nat) : vget Gradient_zero l = 0.
Proof. destruct l as [|[|[|l]]]; reflexivity. Qed.

Lemma sum_n_scale_r (n : nat) (a : Real) (f : nat -> Real) :
  sum_n n (fun k => f k * a) = sum_n n f * a.
Proof. induction n as [|n IH]; cbn [sum_n]; [ring|]. rewrite IH. ring. Qed.

(** For a component without body force the loops add what the specification
    writes: the difference between the two lies in the body force alone. *)
Lemma code_interior_residual_no_body_force (sys : ElasticitySystem) (c : FEMContext)
    (comp i : nat) :
  vget body_force comp = 0 ->
  code_interior_residual sys c comp i = spec_interior_residual sys c comp i.
Proof.
  intros Hb. unfold code_interior_residual, spec_interior_residual. cbv zeta.
  apply sum_n_ext. intros qp Hqp. rewrite Hb.
  rewrite (sum_n_ext _ _ (fun alpha =>
    stress sys c qp comp alpha * vget (get_dphi (get_element_fe c (_u_var sys)) i qp) alpha
    * get_JxW (get_element_fe c (_u_var sys)) qp)) by (intros alpha Ha; ring).
  rewrite sum_n_scale_r. ring.
Qed.

(** C1.  In dimension 3, with one test function of value 1 and zero
    gradient, one quadrature point of weight 1 and a zero displacement
    gradient, the kernel adds 3 to the residual of the third component, where
    the formula of the specification, with the body force (0,0,-1) taken
    once, gives 1. *)
Theorem body_force_added_once_per_alpha :
  elem_residual (elem_blocks (unit_context [])) (rate_var (sample_system 3) 2) 0 = 0
  /\ elem_residual (blocks_after (element_time_derivative (sample_system 3) false
                                    (unit_context []))) (rate_var (sample_system 3) 2) 0
     = Q2Qc 3
  /\ spec_interior_residual (sample_system 3) (unit_context []) 2 0 = 1.
Proof.
  split; [|split]; apply Qc_is_canon; vm_compute; reflexivity.
Qed.

(** C4 as stated fails: in dimension 3, with a zero displacement gradient at
    the only quadrature point, the residual of the third component changes. *)
Lemma zero_gradient_residual_counterexample :
  well_numbered (sample_system 3)
  /\ (forall k qp, interior_gradient (unit_context []) (disp_var (sample_system 3) k) qp
                   = Gradient_zero)
  /\ (2 < _dim (sample_system 3))%nat
  /\ (0 < n_dof_indices (unit_context []) (_u_var (sample_system 3)))%nat
  /\ elem_residual (blocks_after (element_time_derivative (sample_system 3) false
                                    (unit_context []))) (rate_var (sample_system 3) 2) 0
     <> elem_residual (elem_blocks (unit_context [])) (rate_var (sample_system 3) 2) 0.
Proof.
  split; [exact (proj2 (proj2 sample_system_well_numbered))|].
  split; [reflexivity|].
  split; [vm_compute; lia|].
  split; [vm_compute; lia|].
  intros H. apply (f_equal this) in H. vm_compute in H. discriminate H.
Qed.

Lemma stress_zero_gradient (sys : ElasticitySystem) (c : FEMContext) (qp i alpha : nat) :
  (forall k, (k < _dim sys)%nat -> interior_gradient c (disp_var sys k) qp = Gradient_zero) ->
  stress sys c qp i alpha = 0.
Proof.
  intros Hz. unfold stress.
  rewrite (sum_n_ext _ _ (fun _ => 0)); [apply sum_n_zero|].
  intros k Hk. rewrite (sum_n_ext _ _ (fun _ => 0)); [apply sum_n_zero|].
  intros l Hl. unfold grad_U. rewrite (Hz k Hk), vget_Gradient_zero. ring.
Qed.

(** C4, amended.  If the interpolated displacement gradient of every active
    component is zero at every quadrature point, the interior kernel leaves
    the residual of every test function of the first and of the second
    component, those without body force, exactly as it was; in dimensions 1
    and 2 these are all the active components. *)
Theorem zero_gradient_residual (sys : ElasticitySystem) (req : bool) (c : FEMContext)
    (comp i : nat) :
  well_numbered sys ->
  (forall k qp, (k < _dim sys)%nat -> (qp < element_qrule_n_points c)%nat ->
                interior_gradient c (disp_var sys k) qp = Gradient_zero) ->
  (comp < _dim sys)%nat -> (comp < 2)%nat ->
  (i < n_dof_indices c (_u_var sys))%nat ->
  elem_residual (blocks_after (element_time_derivative sys req c)) (rate_var sys comp) i =
  elem_residual (elem_blocks c) (rate_var sys comp) i.
Proof.
  intros [[_ Hd] [_ Hr]] Hz Hc Hc2 Hi.
  rewrite element_residual_active by assumption.
  unfold code_interior_residual. cbv zeta.
  rewrite (sum_n_ext _ _ (fun _ => 0)); [rewrite sum_n_zero; ring|].
  intros qp Hqp. rewrite (sum_n_ext _ _ (fun _ => 0)); [apply sum_n_zero|].
  intros alpha Ha.
  rewrite stress_zero_gradient by (intros k Hk; apply Hz; assumption).
  assert (Hb : vget body_force comp = 0) by (destruct comp as [|[|comp]]; [reflexivity..|lia]).
  rewrite Hb. ring.
Qed.

(** The same context as [sample_context], with a zero displacement field. *)
Lemma zero_gradient_residual_witness :
  let c := mkFEMContext (get_element_fe (sample_context [])) (get_side_fe (sample_context []))
             (n_dof_indices (sample_context [])) 2 2 (fun _ _ => Gradient_zero)
             (interior_accel (sample_context [])) (has_side_boundary_id (sample_context []))
             1 1 (elem_blocks (sample_context [])) in
  elem_residual (blocks_after (element_time_derivative (sample_system 3) true c))
    (rate_var (sample_system 3) 1) 1 =
  elem_residual (elem_blocks c) (rate_var (sample_system 3) 1) 1.
Proof.
  intros c.
  apply (zero_gradient_residual (sample_system 3) true c 1 1).
  - exact (proj2 (proj2 sample_system_well_numbered)).
  - reflexivity.
  - vm_compute; lia.
  - lia.
  - vm_compute; lia.
Defined.

(** ** Interior Jacobian *)

(** C2.  With a Jacobian request, entry [(i,j)] of the block whose row is
    the rate variable of component [comp] and whose column is the
    displacement variable of the trial component [trial] grows by the sum,
    over the quadrature points and over alpha and beta in the active
    dimensions, of
    [elasticity(comp,alpha,trial,beta) * dphi_j(beta) * scale * dphi_i(alpha) * JxW],
    for every pair of active components.  Without a request no Jacobian entry
    is written and every block keeps its value, while the residual receives
    what it receives with a request. *)
Theorem interior_jacobian_postcondition (sys : ElasticitySystem) (c : FEMContext)
    (comp trial i j : nat) :
  well_numbered sys ->
  (comp < _dim sys)%nat -> (trial < _dim sys)%nat ->
  (i < n_dof_indices c (_u_var sys))%nat -> (j < n_dof_indices c (_u_var sys))%nat ->
  elem_jacobian (blocks_after (element_time_derivative sys true c))
      (rate_var sys comp) (disp_var sys trial) i j
    = elem_jacobian (elem_blocks c) (rate_var sys comp) (disp_var sys trial) i j
      + spec_interior_jacobian sys c comp trial i j
  /\ fst (element_time_derivative sys true c) = true
  /\ jacobian_writes (blocks_after (element_time_derivative sys false c))
     = jacobian_writes (elem_blocks c)
  /\ elem_jacobian (blocks_after (element_time_derivative sys false c))
     = elem_jacobian (elem_blocks c)
  /\ fst (element_time_derivative sys false c) = false
  /\ elem_residual (blocks_after (element_time_derivative sys false c)) (rate_var sys comp) i
     = elem_residual (elem_blocks c) (rate_var sys comp) i + code_interior_residual sys c comp i
  /\ (forall v i', elem_residual (blocks_after (element_time_derivative sys false c)) v i'
                   = elem_residual (blocks_after (element_time_derivative sys true c)) v i').
Proof.
  intros [[_ Hd] [Hv Hr]] Hc Ht Hi Hj.
  split; [|split; [|split; [|split; [|split; [|split]]]]].
  - rewrite (element_jacobian_active sys true c comp trial i j) by assumption. reflexivity.
  - reflexivity.
  - apply element_no_request_writes.
  - apply element_no_request_jacobian.
  - reflexivity.
  - apply element_residual_active; assumption.
  - intros v i'. apply element_residual_request_independent.
Qed.

(** A first-order solver in dimension 3: the rows are the velocity variables
    3, 4, 5 and the columns the displacement variables 0, 1, 2. *)
Lemma interior_jacobian_postcondition_witness :
  elem_jacobian (blocks_after (element_time_derivative (first_order (sample_system 3)) true
                                 (sample_context []))) 5 1 0 1
    = elem_jacobian (elem_blocks (sample_context [])) 5 1 0 1
      + spec_interior_jacobian (first_order (sample_system 3)) (sample_context []) 2 1 0 1.
Proof.
  refine (proj1 (interior_jacobian_postcondition (first_order (sample_system 3))
                   (sample_context []) 2 1 0 1 _ _ _ _ _)).
  - unfold well_numbered. repeat split; try (vm_compute; lia);
      apply (bool_decide_unpack _); vm_compute; exact I.
  - vm_compute; lia.
  - vm_compute; lia.
  - vm_compute; lia.
  - vm_compute; lia.
Defined.

(** ** Mass residual *)

Lemma spec_mass_residual_with_rho (sys : ElasticitySystem) (c : FEMContext) (a : Real)
    (comp i : nat) :
  spec_mass_residual (with_rho sys (a * _rho sys)) c comp i = a * spec_mass_residual sys c comp i.
Proof.
  unfold spec_mass_residual. cbv zeta. rewrite <- sum_n_scale.
  apply sum_n_ext. intros qp Hqp. cbn [with_rho _rho]. unfold rate_var, disp_var.
  cbn [with_rho _u_var _v_var _w_var get_second_order_dot_var]. ring.
Qed.

Lemma spec_mass_residual_scale_accel (sys : ElasticitySystem) (c : FEMContext) (a : Real)
    (comp i : nat) :
  spec_mass_residual sys (scale_accel a c) comp i = a * spec_mass_residual sys c comp i.
Proof.
  unfold spec_mass_residual. cbv zeta. rewrite <- sum_n_scale.
  apply sum_n_ext. intros qp Hqp. cbn [scale_accel interior_accel get_element_fe]. ring.
Qed.

(** C6.  For an active component and a test function [i], the mass kernel
    adds to the residual block of the rate variable the sum over the
    quadrature points of [rho * accel(comp) * phi_i * JxW]; with the density
    doubled, or with the acceleration doubled, it adds twice as much.  With a
    Jacobian request it adds the sum of
    [rho * phi_i * phi_j * JxW * accel_scale] to the block that pairs the rate
    variable with itself; every Jacobian write goes to such a block, and a
    block whose row and column variables differ keeps its value. *)
Theorem mass_postcondition (sys : ElasticitySystem) (c : FEMContext) (comp i j : nat) :
  well_numbered sys ->
  (comp < _dim sys)%nat ->
  (i < n_dof_indices c (rate_var sys 0))%nat -> (j < n_dof_indices c (rate_var sys 0))%nat ->
  (forall req,
     elem_residual (blocks_after (mass_residual sys req c)) (rate_var sys comp) i
     = elem_residual (elem_blocks c) (rate_var sys comp) i + spec_mass_residual sys c comp i)
  /\ (forall req,
        elem_residual (blocks_after (mass_residual (with_rho sys (2 * _rho sys)) req c))
          (rate_var sys comp) i
        = elem_residual (elem_blocks c) (rate_var sys comp) i
          + 2 * spec_mass_residual sys c comp i)
  /\ (forall req,
        elem_residual (blocks_after (mass_residual sys req (scale_accel 2 c)))
          (rate_var sys comp) i
        = elem_residual (elem_blocks c) (rate_var sys comp) i
          + 2 * spec_mass_residual sys c comp i)
  /\ elem_jacobian (blocks_after (mass_residual sys true c))
       (rate_var sys comp) (rate_var sys comp) i j
     = elem_jacobian (elem_blocks c) (rate_var sys comp) (rate_var sys comp) i j
       + spec_mass_jacobian sys c i j
  /\ (exists l,
        jacobian_writes (blocks_after (mass_residual sys true c))
          = jacobian_writes (elem_blocks c) ++ l
        /\ Forall (self_coupling_write sys) l)
  /\ (forall r cc i' j', r <> cc ->
        elem_jacobian (blocks_after (mass_residual sys true c)) r cc i' j'
        = elem_jacobian (elem_blocks c) r cc i' j').
Proof.
  intros [[Hd1 Hd] [Hv Hr]] Hc Hi Hj.
  split; [|split; [|split; [|split; [|split]]]].
  - intros req. apply mass_residual_active; assumption.
  - intros req. rewrite <- spec_mass_residual_with_rho.
    apply (mass_residual_active (with_rho sys (2 * _rho sys)) req c comp i); assumption.
  - intros req. rewrite <- spec_mass_residual_scale_accel.
    apply (mass_residual_active sys req (scale_accel 2 c) comp i); assumption.
  - rewrite (mass_jacobian_active sys true c comp i j) by assumption. reflexivity.
  - apply mass_writes_self_coupling. exact Hd1.
  - intros r cc i' j' Hne. apply mass_jacobian_off_diagonal. exact Hne.
Qed.

Lemma mass_postcondition_witness :
  elem_residual (blocks_after (mass_residual (first_order (sample_system 3)) true
                                 (sample_context []))) 4 1
    = elem_residual (elem_blocks (sample_context [])) 4 1
      + spec_mass_residual (first_order (sample_system 3)) (sample_context []) 1 1.
Proof.
  refine (proj1 (mass_postcondition (first_order (sample_system 3)) (sample_context [])
                   1 1 0 _ _ _ _) true).
  - unfold well_numbered. repeat split; try (vm_compute; lia);
      apply (bool_decide_unpack _); vm_compute; exact I.
  - vm_compute; lia.
  - vm_compute; lia.
  - vm_compute; lia.
Defined.

(** ** Boundary loads *)

Lemma vscale_unit_z (a : Real) : vscale a (mkGradient 0 0 1) = mkGradient 0 0 a.
Proof. unfold vscale. cbn [gx gy gz]. f_equal; ring. Qed.

(** C7.  On a face that carries the pressure id, the load in effect at every
    quadrature point is the pressure magnitude, 100, times the normal at that
    point; where the normal is (0,0,1) the load is (0,0,100); and for every
    active component and test function the residual block of the rate
    variable loses the sum over the quadrature points of
    [load(comp) * phi_i * JxW]. *)
Theorem pressure_face_load (ids : BoundaryIds) (sys : ElasticitySystem) (req : bool)
    (c : FEMContext) (comp i : nat) :
  well_numbered sys ->
  has_side_boundary_id c (pressure_boundary_id ids) = true ->
  (comp < _dim sys)%nat -> (i < n_dof_indices c (_u_var sys))%nat ->
  pressure = Q2Qc 100
  /\ (forall qp, side_load ids sys c qp
                 = vscale pressure (get_normals (get_side_fe c (_u_var sys)) qp))
  /\ (forall qp, get_normals (get_side_fe c (_u_var sys)) qp = mkGradient 0 0 1 ->
                 side_load ids sys c qp = mkGradient 0 0 pressure)
  /\ elem_residual (blocks_after (side_time_derivative ids sys req c)) (rate_var sys comp) i
     = elem_residual (elem_blocks c) (rate_var sys comp) i
       - sum_n (side_qrule_n_points c) (fun qp =>
           vget (side_load ids sys c qp) comp
           * get_phi (get_side_fe c (_u_var sys)) i qp
           * get_JxW (get_side_fe c (_u_var sys)) qp).
Proof.
  intros [[_ Hd] [_ Hr]] Hp Hc Hi.
  assert (Hload : forall qp, side_load ids sys c qp
            = vscale pressure (get_normals (get_side_fe c (_u_var sys)) qp)).
  { intros qp. unfold side_load. rewrite Hp. reflexivity. }
  split; [reflexivity|]. split; [exact Hload|]. split.
  - intros qp Hn. rewrite Hload, Hn. apply vscale_unit_z.
  - rewrite (side_residual_pressure ids sys req c comp i) by assumption.
    unfold spec_pressure_residual. cbv zeta.
    erewrite sum_n_ext; [reflexivity|].
    intros qp Hqp. cbv beta. rewrite Hload. reflexivity.
Qed.

Lemma pressure_face_load_witness :
  side_load sample_ids (sample_system 3) (unit_context [50%Z]) 0 = mkGradient 0 0 pressure.
Proof.
  refine (proj1 (proj2 (proj2 (pressure_face_load sample_ids (sample_system 3) false
                                 (unit_context [50%Z]) 2 0 _ _ _ _))) 0%nat _).
  - exact (proj2 (proj2 sample_system_well_numbered)).
  - reflexivity.
  - vm_compute; lia.
  - vm_compute; lia.
  - reflexivity.
Defined.

(** C10.  On a face that carries both the traction id and the pressure id,
    the load in effect at every quadrature point is the pressure times the
    normal, and the residual of every active component loses the pressure
    term alone: the default traction, set before the loop, is replaced at the
    first quadrature point before any residual line runs. *)
Theorem doubly_tagged_face_pressure_only (ids : BoundaryIds) (sys : ElasticitySystem)
    (req : bool) (c : FEMContext) (comp i : nat) :
  well_numbered sys ->
  has_side_boundary_id c (traction_boundary_id ids) = true ->
  has_side_boundary_id c (pressure_boundary_id ids) = true ->
  (comp < _dim sys)%nat -> (i < n_dof_indices c (_u_var sys))%nat ->
  (forall qp, side_load ids sys c qp
              = vscale pressure (get_normals (get_side_fe c (_u_var sys)) qp))
  /\ elem_residual (blocks_after (side_time_derivative ids sys req c)) (rate_var sys comp) i
     = elem_residual (elem_blocks c) (rate_var sys comp) i
       - spec_pressure_residual sys c comp i.
Proof.
  intros [[_ Hd] [_ Hr]] Ht Hp Hc Hi. split.
  - intros qp. unfold side_load. rewrite Hp. reflexivity.
  - apply side_residual_pressure; assumption.
Qed.

Lemma doubly_tagged_face_pressure_only_witness :
  elem_residual (blocks_after (side_time_derivative sample_ids (sample_system 3) true
                                 (sample_context [2%Z; 50%Z]))) 2 1
  = elem_residual (elem_blocks (sample_context [2%Z; 50%Z])) 2 1
    - spec_pressure_residual (sample_system 3) (sample_context [2%Z; 50%Z]) 2 1.
Proof.
  refine (proj2 (doubly_tagged_face_pressure_only sample_ids (sample_system 3) true
                   (sample_context [2%Z; 50%Z]) 2 1 _ _ _ _ _)).
  - exact (proj2 (proj2 sample_system_well_numbered)).
  - reflexivity.
  - reflexivity.
  - vm_compute; lia.
  - vm_compute; lia.
Defined.

(** C8 as stated fails: on a traction face, with a Jacobian request, the
    kernel does not answer that there is no Jacobian contribution; it returns
    true. *)
Lemma side_reports_requested_jacobian :
  has_side_boundary_id (unit_context [2%Z]) (traction_boundary_id sample_ids) = true
  /\ fst (side_time_derivative sample_ids (sample_system 3) true (unit_context [2%Z])) <> false.
Proof. split; [reflexivity | discriminate]. Qed.

(** C8, amended.  [side_time_derivative] performs no Jacobian write and
    leaves every Jacobian block as it was, on every face and for every
    request; what it returns is the request flag itself: true when a Jacobian
    was requested, the contribution being zero, and false when none was. *)
Theorem side_jacobian_behaviour (ids : BoundaryIds) (sys : ElasticitySystem) (req : bool)
    (c : FEMContext) :
  jacobian_writes (blocks_after (side_time_derivative ids sys req c))
    = jacobian_writes (elem_blocks c)
  /\ elem_jacobian (blocks_after (side_time_derivative ids sys req c))
     = elem_jacobian (elem_blocks c)
  /\ fst (side_time_derivative ids sys req c) = req.
Proof.
  split; [apply side_keeps_writes|]. split; [apply side_keeps_jacobian | reflexivity].
Qed.

(** * Further properties of the code *)

(** ** Stress *)

Lemma elasticity_tensor_lambda (i j k l : nat) :
  elasticity_tensor i j k l =
  lambda_1 * kronecker_delta i j * kronecker_delta k l
  + lambda_2 * (kronecker_delta i k * kronecker_delta j l
                + kronecker_delta i l * kronecker_delta j k).
Proof.
  unfold elasticity_tensor, lambda_1, lambda_2, lame_lambda_1, lame_lambda_2.
  cbv zeta. rewrite young_modulus_literal. reflexivity.
Qed.

(** X1.  Hooke's law: for active indices the stress the four loops of the
    interior kernel compute is
    [lambda_1 * delta(a,b) * trace(grad_U) + lambda_2 * (grad_U(a,b) + grad_U(b,a))],
    the trace taken over the active dimensions. *)
Theorem compute_tau_hooke (dim : nat) (G : Tensor) (a b : nat) :
  (dim <= 3)%nat -> (a < dim)%nat -> (b < dim)%nat ->
  tget (compute_tau dim G) a b =
  lambda_1 * kronecker_delta a b * trace dim G + lambda_2 * (tget G a b + tget G b a).
Proof.
  intros Hd Ha Hb. rewrite compute_tau_spec by assumption. unfold trace.
  destruct dim as [|[|[|[|dim]]]]; try lia;
    destruct a as [|[|[|a]]]; try lia; destruct b as [|[|[|b]]]; try lia;
    cbn [sum_n]; rewrite !elasticity_tensor_lambda; unfold kronecker_delta;
    cbn [Nat.eqb]; ring.
Qed.

Lemma compute_tau_hooke_witness :
  tget (compute_tau 3 (mkTensor (mkGradient 1 2 0) (mkGradient 0 1 1) (mkGradient 2 0 1))) 0 1
  = lambda_1 * kronecker_delta 0 1
      * trace 3 (mkTensor (mkGradient 1 2 0) (mkGradient 0 1 1) (mkGradient 2 0 1))
    + lambda_2 * (2 + 0).
Proof.
  apply (compute_tau_hooke 3 (mkTensor (mkGradient 1 2 0) (mkGradient 0 1 1) (mkGradient 2 0 1))
           0 1); lia.
Defined.

(** X2.  The computed stress is symmetric on the active indices, whatever
    the displacement gradient. *)
Theorem compute_tau_symmetric (dim : nat) (G : Tensor) (a b : nat) :
  (dim <= 3)%nat -> (a < dim)%nat -> (b < dim)%nat ->
  tget (compute_tau dim G) a b = tget (compute_tau dim G) b a.
Proof.
  intros Hd Ha Hb. rewrite !compute_tau_hooke by assumption.
  rewrite (kronecker_delta_sym b a). ring.
Qed.

Lemma compute_tau_symmetric_witness :
  tget (compute_tau 3 (mkTensor (mkGradient 1 2 0) (mkGradient 0 1 1) (mkGradient 2 0 1))) 0 2
  = tget (compute_tau 3 (mkTensor (mkGradient 1 2 0) (mkGradient 0 1 1) (mkGradient 2 0 1))) 2 0.
Proof.
  apply (compute_tau_symmetric 3
           (mkTensor (mkGradient 1 2 0) (mkGradient 0 1 1) (mkGradient 2 0 1)) 0 2); lia.
Defined.

Lemma Qc_eq_opp_zero (x : Real) : x = - x -> x = 0.
Proof.
  intros H. assert (H2 : (1 + 1) * x = 0).
  { transitivity (x + - x); [|ring]. rewrite <- H. ring. }
  destruct (Qcmult_integral _ _ H2) as [H0|H0]; [discriminate H0 | exact H0].
Qed.

(** X3.  A skew displacement gradient, that of an infinitesimal rigid
    rotation, gives no stress: if [grad_U(k,l) = - grad_U(l,k)] on the active
    indices, every active entry of the computed stress is zero. *)
Theorem compute_tau_skew_gradient (dim : nat) (G : Tensor) (a b : nat) :
  (dim <= 3)%nat -> (a < dim)%nat -> (b < dim)%nat ->
  (forall k l, (k < dim)%nat -> (l < dim)%nat -> tget G k l = - tget G l k) ->
  tget (compute_tau dim G) a b = 0.
Proof.
  intros Hd Ha Hb Hskew. rewrite compute_tau_hooke by assumption.
  assert (Htr : trace dim G = 0).
  { unfold trace. rewrite (sum_n_ext _ _ (fun _ => 0)); [apply sum_n_zero|].
    intros k Hk. apply Qc_eq_opp_zero. apply Hskew; assumption. }
  rewrite Htr, (Hskew a b Ha Hb). ring.
Qed.

Lemma compute_tau_skew_gradient_witness :
  tget (compute_tau 3 (mkTensor (mkGradient 0 1 (- 1)) (mkGradient (- 1) 0 1)
                                (mkGradient 1 (- 1) 0))) 1 2 = 0.
Proof.
  apply (compute_tau_skew_gradient 3
           (mkTensor (mkGradient 0 1 (- 1)) (mkGradient (- 1) 0 1) (mkGradient 1 (- 1) 0)) 1 2);
    try lia.
  intros k l Hk Hl.
  destruct k as [|[|[|k]]]; try lia; destruct l as [|[|[|l]]]; try lia;
    apply Qc_is_canon; reflexivity.
Defined.

(** ** The kernels as accumulators *)

















(** ** The interior kernel *)

Lemma sum_n_all_zero (n : nat) (f : nat -> Real) :
  (forall k, (k < n)%nat -> f k = 0) -> sum_n n f = 0.
Proof. intros H. rewrite (sum_n_ext _ _ (fun _ => 0)) by exact H. apply sum_n_zero. Qed.


Lemma ltb_false (a n : nat) : (n <= a)%nat -> (a <? n) = false.
Proof. apply Nat.ltb_ge. Qed.

(** X6.  What the interior kernel never touches: the residual block of a
    variable that is not the rate variable of an active component, the
    Jacobian block of a pair that is not (rate variable of an active
    component, displacement variable of an active component), and every entry
    whose index is not below the number of degrees of freedom of the U
    variable, keep their values. *)
Theorem element_kernel_frame (sys : ElasticitySystem) (req : bool) (c : FEMContext) :
  (forall v i, (forall k, (k < _dim sys)%nat -> v <> rate_var sys k) ->
     elem_residual (blocks_after (element_time_derivative sys req c)) v i
     = elem_residual (elem_blocks c) v i)
  /\ (forall v i, (n_dof_indices c (_u_var sys) <= i)%nat ->
        elem_residual (blocks_after (element_time_derivative sys req c)) v i
        = elem_residual (elem_blocks c) v i)
  /\ (forall r cc i j,
        (forall k t, (k < _dim sys)%nat -> (t < _dim sys)%nat ->
                     r = rate_var sys k -> cc <> disp_var sys t) ->
        elem_jacobian (blocks_after (element_time_derivative sys req c)) r cc i j
        = elem_jacobian (elem_blocks c) r cc i j)
  /\ (forall r cc i j,
        (n_dof_indices c (_u_var sys) <= i)%nat \/ (n_dof_indices c (_u_var sys) <= j)%nat ->
        elem_jacobian (blocks_after (element_time_derivative sys req c)) r cc i j
        = elem_jacobian (elem_blocks c) r cc i j).
Proof.
  split; [|split; [|split]].
  - intros v i Hv. rewrite element_residual_raw.
    rewrite sum_n_all_zero; [ring|]. intros qp Hqp.
    rewrite sum_n_all_zero; [apply ind_zero|]. intros alpha Ha.
    assert (H0 : (v =? rate_var sys 0) = false) by (apply Nat.eqb_neq, Hv; lia).
    rewrite H0. cbn [ind].
    destruct (Nat.ltb_spec 1 (_dim sys)) as [H1|H1]; cbn [ind];
      [rewrite (proj2 (Nat.eqb_neq v (rate_var sys 1)) (Hv 1%nat H1)); cbn [ind]|];
      (destruct (Nat.ltb_spec 2 (_dim sys)) as [H2|H2]; cbn [ind];
       [rewrite (proj2 (Nat.eqb_neq v (rate_var sys 2)) (Hv 2%nat H2)); cbn [ind]|]); ring.
  - intros v i Hi. rewrite element_residual_raw.
    rewrite sum_n_all_zero; [ring|]. intros qp Hqp.
    rewrite (ltb_false _ _ Hi). reflexivity.
  - intros r cc i j Hb. rewrite element_jacobian_raw.
    rewrite sum_n_all_zero; [ring|]. intros qp Hqp.
    rewrite sum_n_all_zero; [apply ind_zero|]. intros alpha Ha.
    rewrite sum_n_all_zero; [rewrite !ind_zero; reflexivity|]. intros beta Hbeta.
    assert (Hhit : forall k t, (k < _dim sys)%nat -> (t < _dim sys)%nat ->
              (r =? rate_var sys k) && (cc =? disp_var sys t) = false).
    { intros k t Hk Ht.
      destruct (Nat.eqb_spec r (rate_var sys k)) as [Hr|Hr]; [|reflexivity].
      apply (proj2 (Nat.eqb_neq cc (disp_var sys t))). apply (Hb k t Hk Ht Hr). }
    unfold jacobian_lines. cbv zeta.
    rewrite (Hhit 0%nat 0%nat) by lia. cbn [ind].
    destruct (Nat.ltb_spec 1 (_dim sys)) as [H1|H1]; cbn [ind];
      [rewrite (Hhit 0%nat 1%nat), (Hhit 1%nat 0%nat), (Hhit 1%nat 1%nat) by lia; cbn [ind]|];
      (destruct (Nat.ltb_spec 2 (_dim sys)) as [H2|H2]; cbn [ind];
       [rewrite (Hhit 0%nat 2%nat), (Hhit 1%nat 2%nat), (Hhit 2%nat 0%nat),
          (Hhit 2%nat 1%nat), (Hhit 2%nat 2%nat) by lia; cbn [ind]|]); ring.
  - intros r cc i j Hij. rewrite element_jacobian_raw.
    rewrite sum_n_all_zero; [ring|]. intros qp Hqp.
    destruct Hij as [Hi|Hj].
    + rewrite (ltb_false _ _ Hi). reflexivity.
    + rewrite (ltb_false _ _ Hj). rewrite sum_n_all_zero; [apply ind_zero|].
      intros alpha Ha. destruct req; reflexivity.
Qed.

Lemma element_kernel_frame_witness :
  elem_residual (blocks_after (element_time_derivative (first_order (sample_system 2)) true
                                 (sample_context []))) 0 1
  = elem_residual (elem_blocks (sample_context [])) 0 1.
Proof.
  apply (proj1 (element_kernel_frame (first_order (sample_system 2)) true (sample_context []))).
  intros k Hk. change (_dim (first_order (sample_system 2))) with 2%nat in Hk.
  destruct k as [|[|k]]; [discriminate | discriminate | lia].
Defined.











(** ** The boundary kernel *)

Lemma dim_minus_one_pred (d : nat) : (1 <= d <= 3)%nat -> dim_minus_one d = (d - 1)%nat.
Proof. intros H. destruct d as [|[|[|[|d]]]]; try lia; reflexivity. Qed.

(** X9.  On a face that carries the traction id and not the pressure id the
    load is the default traction, -1 along the last active dimension: the
    residual of the last active component gains the sum over the quadrature
    points of [phi_i * JxW], and the residual of every other active component
    keeps its value. *)
Theorem traction_face_last_component (ids : BoundaryIds) (sys : ElasticitySystem) (req : bool)
    (c : FEMContext) (comp i : nat) :
  well_numbered sys ->
  has_side_boundary_id c (traction_boundary_id ids) = true ->
  has_side_boundary_id c (pressure_boundary_id ids) = false ->
  (comp < _dim sys)%nat -> (i < n_dof_indices c (_u_var sys))%nat ->
  elem_residual (blocks_after (side_time_derivative ids sys req c)) (rate_var sys comp) i
  = elem_residual (elem_blocks c) (rate_var sys comp) i
    + (if comp =? _dim sys - 1
       then sum_n (side_qrule_n_points c) (fun qp =>
              get_phi (get_side_fe c (_u_var sys)) i qp
              * get_JxW (get_side_fe c (_u_var sys)) qp)
       else 0).
Proof.
  intros [[Hd1 Hd] [_ Hr]] Ht Hp Hc Hi.
  rewrite side_residual_raw, Ht, orb_true_l, ind_true. f_equal.
  assert (Hterm : forall k qp, (k < 3)%nat ->
            side_term ids sys c k i qp
            = (if (_dim sys - 1 =? k) then - 1 else 0)
              * get_phi (get_side_fe c (_u_var sys)) i qp
              * get_JxW (get_side_fe c (_u_var sys)) qp).
  { intros k qp Hk. unfold side_term, side_load. rewrite Hp. cbv zeta.
    rewrite dim_minus_one_pred by lia. rewrite vget_vset, (ltb_true k 3 Hk), andb_true_r.
    destruct (_ =? k); [reflexivity|]. rewrite vget_Gradient_zero. reflexivity. }
  rewrite (sum_n_ext _ _ (fun qp =>
     ind (comp =? _dim sys - 1)
       (get_phi (get_side_fe c (_u_var sys)) i qp * get_JxW (get_side_fe c (_u_var sys)) qp))).
  - rewrite sum_n_ind. destruct (comp =? _ - 1); reflexivity.
  - intros qp Hqp. rewrite (ltb_true _ _ Hi), ind_true, !Hterm by lia.
    destruct (Nat.ltb_spec 1 (_dim sys)), (Nat.ltb_spec 2 (_dim sys));
      cbn [ind]; rewrite ?rate_var_eqb by (assumption || lia);
      destruct comp as [|[|[|comp]]]; try lia;
      destruct (_dim sys) as [|[|[|[|d]]]]; try lia;
      cbn [Nat.eqb Nat.sub ind]; ring.
Qed.

Lemma traction_face_last_component_witness :
  elem_residual (blocks_after (side_time_derivative sample_ids (sample_system 2) true
                                 (sample_context [2%Z]))) 1 1
  = elem_residual (elem_blocks (sample_context [2%Z])) 1 1
    + sum_n 2 (fun qp => get_phi sample_fe 1 qp * get_JxW sample_fe qp).
Proof.
  refine (traction_face_last_component sample_ids (sample_system 2) true
            (sample_context [2%Z]) 1 1 _ _ _ _ _).
  - exact (proj1 (proj2 sample_system_well_numbered)).
  - reflexivity.
  - reflexivity.
  - vm_compute; lia.
  - vm_compute; lia.
Defined.

(** X10.  What the boundary kernel never touches: on a face that carries
    neither the traction id nor the pressure id it returns the context it was
    given; on every face the residual block of a variable that is not the
    rate variable of an active component, and every residual entry whose
    index is not below the number of degrees of freedom of the U variable,
    keep their values. *)
Theorem side_kernel_frame (ids : BoundaryIds) (sys : ElasticitySystem) (req : bool)
    (c : FEMContext) :
  (has_side_boundary_id c (traction_boundary_id ids) = false ->
   has_side_boundary_id c (pressure_boundary_id ids) = false ->
   snd (side_time_derivative ids sys req c) = c)
  /\ (forall v i, (1 <= _dim sys)%nat ->
        (forall k, (k < _dim sys)%nat -> v <> rate_var sys k) ->
        elem_residual (blocks_after (side_time_derivative ids sys req c)) v i
        = elem_residual (elem_blocks c) v i)
  /\ (forall v i, (n_dof_indices c (_u_var sys) <= i)%nat ->
        elem_residual (blocks_after (side_time_derivative ids sys req c)) v i
        = elem_residual (elem_blocks c) v i).
Proof.
  split; [|split].
  - intros Ht Hp. unfold side_time_derivative. rewrite Ht, Hp. reflexivity.
  - intros v i Hd Hv. rewrite side_residual_raw.
    rewrite sum_n_all_zero; [rewrite ind_zero; ring|]. intros qp Hqp.
    rewrite (proj2 (Nat.eqb_neq v (rate_var sys 0)) (Hv 0%nat Hd)). cbn [ind].
    destruct (Nat.ltb_spec 1 (_dim sys)) as [H1|H1]; cbn [ind];
      [rewrite (proj2 (Nat.eqb_neq v (rate_var sys 1)) (Hv 1%nat H1)); cbn [ind]|];
      (destruct (Nat.ltb_spec 2 (_dim sys)) as [H2|H2]; cbn [ind];
       [rewrite (proj2 (Nat.eqb_neq v (rate_var sys 2)) (Hv 2%nat H2)); cbn [ind]|]);
      rewrite ?Qcplus_0_r; apply ind_zero.
  - intros v i Hi. rewrite side_residual_raw.
    rewrite sum_n_all_zero; [rewrite ind_zero; ring|]. intros qp Hqp.
    rewrite (ltb_false _ _ Hi). reflexivity.
Qed.

Lemma side_kernel_frame_witness :
  snd (side_time_derivative sample_ids (sample_system 3) true (sample_context [4%Z]))
  = sample_context [4%Z].
Proof.
  apply (proj1 (side_kernel_frame sample_ids (sample_system 3) true (sample_context [4%Z])));
    reflexivity.
Defined.

(** ** The mass kernel *)

Lemma mass_no_request_writes (sys : ElasticitySystem) (c : FEMContext) :
  jacobian_writes (blocks_after (mass_residual sys false c)) = jacobian_writes (elem_blocks c).
Proof.
  unfold blocks_after, mass_residual. cbn [snd with_blocks elem_blocks].
  apply (Keeps_for_loop jacobian_writes). intros qp Hqp. cbv zeta. keeps.
Qed.

Lemma mass_no_request_jacobian (sys : ElasticitySystem) (c : FEMContext) :
  elem_jacobian (blocks_after (mass_residual sys false c)) = elem_jacobian (elem_blocks c).
Proof.
  unfold blocks_after, mass_residual. cbn [snd with_blocks elem_blocks].
  apply (Keeps_for_loop elem_jacobian). intros qp Hqp. cbv zeta. keeps.
Qed.

(** X11.  What the mass kernel never touches: without a Jacobian request it
    performs no Jacobian write and every Jacobian block keeps its value, while
    the residual receives what it receives with a request; with or without a
    request the residual block of a variable that is not the rate variable of
    an active component, and every residual entry whose index is not below
    the number of degrees of freedom of the U rate variable, keep their
    values. *)
Theorem mass_kernel_frame (sys : ElasticitySystem) (req : bool) (c : FEMContext) :
  jacobian_writes (blocks_after (mass_residual sys false c)) = jacobian_writes (elem_blocks c)
  /\ elem_jacobian (blocks_after (mass_residual sys false c)) = elem_jacobian (elem_blocks c)
  /\ (forall v i, elem_residual (blocks_after (mass_residual sys false c)) v i
                  = elem_residual (blocks_after (mass_residual sys true c)) v i)
  /\ (forall v i, (1 <= _dim sys)%nat ->
        (forall k, (k < _dim sys)%nat -> v <> rate_var sys k) ->
        elem_residual (blocks_after (mass_residual sys req c)) v i
        = elem_residual (elem_blocks c) v i)
  /\ (forall v i, (n_dof_indices c (rate_var sys 0) <= i)%nat ->
        elem_residual (blocks_after (mass_residual sys req c)) v i
        = elem_residual (elem_blocks c) v i).
Proof.
  split; [apply mass_no_request_writes|]. split; [apply mass_no_request_jacobian|].
  split; [|split].
  - intros v i. rewrite !mass_residual_raw. reflexivity.
  - intros v i Hd Hv. rewrite mass_residual_raw.
    rewrite sum_n_all_zero; [ring|]. intros qp Hqp.
    rewrite (proj2 (Nat.eqb_neq v (rate_var sys 0)) (Hv 0%nat Hd)). cbn [ind].
    destruct (Nat.ltb_spec 1 (_dim sys)) as [H1|H1]; cbn [ind];
      [rewrite (proj2 (Nat.eqb_neq v (rate_var sys 1)) (Hv 1%nat H1)); cbn [ind]|];
      (destruct (Nat.ltb_spec 2 (_dim sys)) as [H2|H2]; cbn [ind];
       [rewrite (proj2 (Nat.eqb_neq v (rate_var sys 2)) (Hv 2%nat H2)); cbn [ind]|]);
      rewrite ?Qcplus_0_r; apply ind_zero.
  - intros v i Hi. rewrite mass_residual_raw.
    rewrite sum_n_all_zero; [ring|]. intros qp Hqp.
    rewrite (ltb_false _ _ Hi). reflexivity.
Qed.

Lemma mass_kernel_frame_witness :
  elem_residual (blocks_after (mass_residual (first_order (sample_system 3)) true
                                 (sample_context []))) 1 0
  = elem_residual (elem_blocks (sample_context [])) 1 0.
Proof.
  refine (proj1 (proj2 (proj2 (proj2 (mass_kernel_frame (first_order (sample_system 3)) true
                                        (sample_context []))))) 1%nat 0%nat _ _).
  - vm_compute; lia.
  - intros k Hk. change (_dim (first_order (sample_system 3))) with 3%nat in Hk.
    destruct k as [|[|[|k]]]; [discriminate | discriminate | discriminate | lia].
Defined.







(** ** Constraint set-up *)

Lemma insert_if_present_elem (all : gset boundary_id_type) (x y : boundary_id_type)
    (ids : gset boundary_id_type) :
  y ∈ insert_if_present all x ids <-> (y = x /\ x ∈ all) \/ y ∈ ids.
Proof.
  unfold insert_if_present. destruct (decide (x ∈ all)) as [Hx|Hx].
  - rewrite elem_of_union, elem_of_singleton. tauto.
  - tauto.
Qed.

Lemma insert_if_present_chain (all : gset boundary_id_type) (m n e : boundary_id_type) :
  insert_if_present all e (insert_if_present all n (insert_if_present all m ∅))
  = all ∩ {[ m; n; e ]}.
Proof.
  apply set_eq. intros y.
  rewrite !insert_if_present_elem, elem_of_intersection, !elem_of_union, !elem_of_singleton.
  pose proof (not_elem_of_empty (C := gset boundary_id_type) y) as Hy.
  split.
  - intros H. destruct H as [[E H]|[[E H]|[[E H]|H]]]; subst; tauto.
  - intros H. destruct H as [H [[E|E]|E]]; subst; tauto.
Qed.

Lemma insert_if_present_single (all : gset boundary_id_type) (x : boundary_id_type) :
  insert_if_present all x ∅ = if decide (x ∈ all) then {[ x ]} else ∅.
Proof.
  unfold insert_if_present. destruct (decide (x ∈ all)) as [Hx|Hx]; [|reflexivity].
  apply union_empty_r_L.
Qed.

Ltac step_add_variable :=
  match goal with
  | |- context [add_variable ?name ?s] =>
      let D := fresh "D" in
      let M := fresh "M" in
      let R := fresh "R" in
      pose proof (add_variable_constraints name s) as [D [M R]];
      destruct (add_variable name s) as [? ?]; cbn [snd] in D, M, R
  end.

(** X14.  The constraint table after [init_data]: the entries it held
    before are kept, in order; then comes the general Dirichlet boundary, on
    those of the ids min-x, node and edge that some processor holds, over the
    active displacement variables; then a boundary on the fixed-U id over the
    U variable if some processor holds that id; then a boundary on the fixed-V
    id over the V variable if some processor holds that id.  Nothing else is
    added. *)
Theorem init_data_constraints (ids : BoundaryIds) (sys : ElasticitySystem) :
  (1 <= _dim sys <= 3)%nat ->
  dirichlet_boundaries (base (init_data ids sys))
  = dirichlet_boundaries (base sys)
    ++ [mkDirichletBoundary
          (all_boundary_ids (base sys)
           ∩ {[ boundary_id_min_x; node_boundary_id ids; edge_boundary_id ids ]})
          (active_disp_vars (init_data ids sys))]
    ++ (if decide (fixed_u_boundary_id ids ∈ all_boundary_ids (base sys))
        then [mkDirichletBoundary {[ fixed_u_boundary_id ids ]} [_u_var (init_data ids sys)]]
        else [])
    ++ (if decide (fixed_v_boundary_id ids ∈ all_boundary_ids (base sys))
        then [mkDirichletBoundary {[ fixed_v_boundary_id ids ]} [_v_var (init_data ids sys)]]
        else []).
Proof.
  intros Hd. unfold init_data, active_disp_vars, all_boundary_ids.
  destruct (_dim sys) as [|[|[|[|d]]]]; try lia; clear Hd;
    cbn [Nat.ltb Nat.leb];
    repeat (step_add_variable; cbv beta iota zeta);
    unfold set_union; cbn [time_evolving mesh_boundary_ids remote_boundary_ids];
    repeat match goal with
           | H : mesh_boundary_ids _ = _ |- _ => rewrite H; clear H
           | H : remote_boundary_ids _ = _ |- _ => rewrite H; clear H
           end;
    rewrite insert_if_present_chain, !insert_if_present_single;
    set (all := mesh_boundary_ids (base sys) ∪ remote_boundary_ids (base sys));
    destruct (decide (fixed_u_boundary_id ids ∈ all)) as [Hu|Hu],
             (decide (fixed_v_boundary_id ids ∈ all)) as [Hv|Hv];
    repeat match goal with
           | |- context [decide ({[ ?x ]} = ∅)] =>
               let He := fresh "He" in
               destruct (decide ({[ x ]} = (∅ : gset boundary_id_type))) as [He|He];
               [exfalso; exact (non_empty_singleton_L x He)|]
           | |- context [decide (∅ = ∅)] =>
               let He := fresh "He" in
               destruct (decide ((∅ : gset boundary_id_type) = ∅)) as [He|He];
               [|contradiction]
           end;
    cbn;
    repeat match goal with
           | H : dirichlet_boundaries _ = _ |- _ => rewrite H; clear H
           end;
    rewrite <- ?app_assoc; reflexivity.
Qed.

Lemma init_data_constraints_witness :
  dirichlet_boundaries
    (base (init_data sample_ids (fresh_system 2 {[ boundary_id_min_x; 30%Z ]})))
  = [mkDirichletBoundary
       (({[ boundary_id_min_x; 30%Z ]} ∪ ∅) ∩ {[ boundary_id_min_x; 10%Z; 20%Z ]}) [0; 1]%nat;
     mkDirichletBoundary {[ 30%Z ]} [0%nat]].
Proof.
  refine (eq_trans
            (init_data_constraints sample_ids (fresh_system 2 {[ boundary_id_min_x; 30%Z ]}) _)
            _).
  - vm_compute; lia.
  - reflexivity.
Defined.

(** X15.  In dimension 1 the V variable is the U variable, so when some
    processor holds the fixed-V id the Dirichlet boundary registered for it
    constrains the U variable. *)
Theorem fixed_v_boundary_constrains_u_in_1d (ids : BoundaryIds) (sys : ElasticitySystem) :
  _dim sys = 1%nat ->
  fixed_v_boundary_id ids ∈ all_boundary_ids (base sys) ->
  mkDirichletBoundary {[ fixed_v_boundary_id ids ]} [_u_var (init_data ids sys)]
  ∈ dirichlet_boundaries (base (init_data ids sys)).
Proof.
  intros Hd Hv.
  rewrite (init_data_constraints ids sys) by lia.
  destruct (init_data_vars ids sys) as [_ [Hvu _]].
  rewrite Hvu by (rewrite Hd; reflexivity).
  destruct (decide (fixed_v_boundary_id ids ∈ all_boundary_ids (base sys))); [|contradiction].
  rewrite !elem_of_app. right. right. right. apply list_elem_of_singleton. reflexivity.
Qed.

Lemma fixed_v_boundary_constrains_u_in_1d_witness :
  mkDirichletBoundary {[ 40%Z ]} [_u_var (init_data sample_ids (fresh_system 1 {[ 40%Z ]}))]
  ∈ dirichlet_boundaries (base (init_data sample_ids (fresh_system 1 {[ 40%Z ]}))).
Proof.
  apply (fixed_v_boundary_constrains_u_in_1d sample_ids (fresh_system 1 {[ 40%Z ]})).
  - reflexivity.
  - apply (bool_decide_unpack _). vm_compute. exact I.
Defined.

(** ** The elasticity tensor and the strain energy *)

(** X16.  The elasticity tensor has the symmetries of isotropic linear
    elasticity: it is unchanged when the first two indices are exchanged, when
    the last two are exchanged, and when the first pair is exchanged with the
    last pair. *)
Theorem elasticity_tensor_isotropic_symmetry (i j k l : nat) :
  elasticity_tensor i j k l = elasticity_tensor j i k l
  /\ elasticity_tensor i j k l = elasticity_tensor i j l k
  /\ elasticity_tensor i j k l = elasticity_tensor k l i j.
Proof.
  rewrite !elasticity_tensor_lambda.
  rewrite (kronecker_delta_sym j i), (kronecker_delta_sym l k), (kronecker_delta_sym k i),
    (kronecker_delta_sym l j), (kronecker_delta_sym l i), (kronecker_delta_sym k j).
  repeat split; ring.
Qed.

Lemma Qc_square_nonneg (x : Real) : 0 <= x * x.
Proof.
  destruct (Qclt_le_dec x 0) as [Hneg|Hpos].
  - replace (x * x) with ((- x) * (- x)) by ring.
    assert (H : 0 <= - x).
    { apply Qclt_le_weak in Hneg. apply (proj1 (Qcplus_le_mono_r x 0 (- x))) in Hneg.
      replace (x + - x) with 0 in Hneg by ring. rewrite Qcplus_0_l in Hneg. exact Hneg. }
    apply Qcmult_nonneg_nonneg; exact H.
  - apply Qcmult_nonneg_nonneg; exact Hpos.
Qed.

Lemma lambda_nonneg : 0 <= lambda_1 /\ 0 <= lambda_2.
Proof. split; vm_compute; discriminate. Qed.

Lemma energy_form_nonneg (l1 l2 t d s : Real) :
  0 <= l1 -> 0 <= l2 -> 0 <= d -> 0 <= s -> 0 <= l1 * (t * t) + l2 * (d + s).
Proof.
  intros H1 H2 Hd Hs.
  apply Qcplus_nonneg_nonneg.
  - apply Qcmult_nonneg_nonneg; [exact H1 | apply Qc_square_nonneg].
  - apply Qcmult_nonneg_nonneg; [exact H2 | apply Qcplus_nonneg_nonneg; assumption].
Qed.

Lemma double_square_nonneg (x : Real) : 0 <= x * x + x * x.
Proof. apply Qcplus_nonneg_nonneg; apply Qc_square_nonneg. Qed.

(** X17.  The strain energy is never negative: for every displacement
    gradient, the computed stress contracted with the gradient over the
    active dimensions is at least zero. *)
Theorem strain_energy_nonneg (dim : nat) (G : Tensor) :
  (dim <= 3)%nat -> 0 <= strain_energy dim G.
Proof.
  intros Hd. unfold strain_energy.
  destruct lambda_nonneg as [H1 H2].
  destruct dim as [|[|[|[|dim]]]]; try lia; cbn [sum_n].
  - apply Qcle_refl.
  - rewrite !compute_tau_hooke by lia. unfold trace, kronecker_delta.
    cbn [sum_n Nat.eqb]. revert H1 H2. generalize lambda_1, lambda_2. intros l1 l2 H1 H2.
    set (g00 := tget G 0 0).
    match goal with
    | |- 0 <= ?e =>
        replace e with (l1 * (g00 * g00) + l2 * ((g00 * g00 + g00 * g00) + 0)) by ring
    end.
    apply energy_form_nonneg; try assumption; [apply double_square_nonneg | apply Qcle_refl].
  - rewrite !compute_tau_hooke by lia. unfold trace, kronecker_delta.
    cbn [sum_n Nat.eqb]. revert H1 H2. generalize lambda_1, lambda_2. intros l1 l2 H1 H2.
    set (g00 := tget G 0 0). set (g01 := tget G 0 1).
    set (g10 := tget G 1 0). set (g11 := tget G 1 1).
    match goal with
    | |- 0 <= ?e =>
        replace e with
          (l1 * ((g00 + g11) * (g00 + g11))
           + l2 * (((g00 * g00 + g00 * g00) + (g11 * g11 + g11 * g11))
                   + (g01 + g10) * (g01 + g10))) by ring
    end.
    apply energy_form_nonneg; try assumption.
    + apply Qcplus_nonneg_nonneg; apply double_square_nonneg.
    + apply Qc_square_nonneg.
  - rewrite !compute_tau_hooke by lia. unfold trace, kronecker_delta.
    cbn [sum_n Nat.eqb]. revert H1 H2. generalize lambda_1, lambda_2. intros l1 l2 H1 H2.
    set (g00 := tget G 0 0). set (g01 := tget G 0 1). set (g02 := tget G 0 2).
    set (g10 := tget G 1 0). set (g11 := tget G 1 1). set (g12 := tget G 1 2).
    set (g20 := tget G 2 0). set (g21 := tget G 2 1). set (g22 := tget G 2 2).
    match goal with
    | |- 0 <= ?e =>
        replace e with
          (l1 * ((g00 + g11 + g22) * (g00 + g11 + g22))
           + l2 * (((g00 * g00 + g00 * g00) + (g11 * g11 + g11 * g11)
                    + (g22 * g22 + g22 * g22))
                   + ((g01 + g10) * (g01 + g10) + (g02 + g20) * (g02 + g20)
                      + (g12 + g21) * (g12 + g21)))) by ring
    end.
    apply energy_form_nonneg; try assumption.
    + apply Qcplus_nonneg_nonneg; [apply Qcplus_nonneg_nonneg|]; apply double_square_nonneg.
    + apply Qcplus_nonneg_nonneg; [apply Qcplus_nonneg_nonneg|]; apply Qc_square_nonneg.
Qed.

Lemma strain_energy_nonneg_witness :
  0 <= strain_energy 3 (mkTensor (mkGradient 1 (- 1) 0) (mkGradient 2 0 1) (mkGradient 0 1 (- 1))).
Proof.
  apply (strain_energy_nonneg 3). lia.
Defined.

(** ** The interior residual as the loops compute it *)

Lemma real_of_nat_S (n : nat) : real_of_nat (S n) = real_of_nat n + 1.
Proof.
  unfold real_of_nat. apply Qc_is_canon. cbn [this Q2Qc Qcplus].
  rewrite !Qred_correct, Nat2Z.inj_succ. unfold Z.succ. rewrite inject_Z_plus. reflexivity.
Qed.

Lemma sum_n_const (n : nat) (x : Real) : sum_n n (fun _ => x) = real_of_nat n * x.
Proof.
  induction n as [|n IH]; cbn [sum_n].
  - replace (real_of_nat 0) with 0 by (apply Qc_is_canon; reflexivity). ring.
  - rewrite IH, real_of_nat_S. ring.
Qed.

(** X18.  The interior residual as the loops compute it: for an active
    component and a test function [i] the kernel adds, at every quadrature
    point, the stress term summed over alpha minus [_dim] times the body-force
    term, times [JxW]; the body-force line runs once per alpha.  For the first
    two components the body force is zero and only the stress term is
    added. *)
Theorem interior_residual_as_coded (sys : ElasticitySystem) (req : bool) (c : FEMContext)
    (comp i : nat) :
  well_numbered sys ->
  (comp < _dim sys)%nat -> (i < n_dof_indices c (_u_var sys))%nat ->
  elem_residual (blocks_after (element_time_derivative sys req c)) (rate_var sys comp) i
  = elem_residual (elem_blocks c) (rate_var sys comp) i
    + sum_n (element_qrule_n_points c) (fun qp =>
        (sum_n (_dim sys) (fun alpha =>
           stress sys c qp comp alpha
           * vget (get_dphi (get_element_fe c (_u_var sys)) i qp) alpha)
         - real_of_nat (_dim sys)
           * (vget body_force comp * get_phi (get_element_fe c (_u_var sys)) i qp))
        * get_JxW (get_element_fe c (_u_var sys)) qp).
Proof.
  intros [[_ Hd] [_ Hr]] Hc Hi.
  rewrite element_residual_active by assumption. f_equal.
  unfold code_interior_residual. cbv zeta. apply sum_n_ext. intros qp Hqp.
  set (fe := get_element_fe c (_u_var sys)).
  rewrite (sum_n_ext _ _ (fun alpha =>
     stress sys c qp comp alpha * vget (get_dphi fe i qp) alpha * get_JxW fe qp
     + - (vget body_force comp * get_phi fe i qp * get_JxW fe qp))) by (intros; ring).
  rewrite sum_n_plus, sum_n_scale_r, sum_n_const. ring.
Qed.

Lemma interior_residual_as_coded_witness :
  elem_residual (blocks_after (element_time_derivative (sample_system 3) true
                                 (sample_context []))) 2 1
  = elem_residual (elem_blocks (sample_context [])) 2 1
    + sum_n 2 (fun qp =>
        (sum_n 3 (fun alpha =>
           stress (sample_system 3) (sample_context []) qp 2 alpha
           * vget (get_dphi sample_fe 1 qp) alpha)
         - real_of_nat 3 * (vget body_force 2 * get_phi sample_fe 1 qp))
        * get_JxW sample_fe qp).
Proof.
  refine (interior_residual_as_coded (sample_system 3) true (sample_context []) 2 1 _ _ _).
  - exact (proj2 (proj2 sample_system_well_numbered)).
  - vm_compute; lia.
  - vm_compute; lia.
Defined.
